(** * Giza: a hierarchical store with bubbling events

    A shallow embedding of the Bubbler (two event buses, subscription
    filters, upward propagation), of the Store (a tree of nodes addressed by
    path, created on write) and of the Giza facade, followed by the
    properties stated about them.

    Callbacks are opaque: calling one is recorded and has no other effect.
    The Store records its calls on the bubbler it was given, and takes them
    to return. *)

From Stdlib Require Import String Ascii ZArith Lia.
From stdpp Require Import base option list gmap strings.
From Equations Require Import Equations.

Open Scope string_scope.
Open Scope list_scope.

(** * JavaScript strings: the operations the sources use on paths *)

Module JsString.

Definition slash : ascii := "/"%char.

Definition is_slash (c : ascii) : bool := Ascii.eqb c slash.

(** [path.lastIndexOf('/')]; [None] stands for the [-1] of JavaScript. *)
Fixpoint lastIndexOf (s : string) : option nat :=
  match s with
  | EmptyString => None
  | String c r =>
      match lastIndexOf r with
      | Some i => Some (S i)
      | None => if is_slash c then Some 0 else None
      end
  end.

(** [path.replace(/\/+$/, '')]: drops the trailing run of slashes. *)
Fixpoint stripTrailingSlashes (s : string) : string :=
  match s with
  | EmptyString => EmptyString
  | String c r =>
      match stripTrailingSlashes r with
      | EmptyString => if is_slash c then EmptyString else String c EmptyString
      | r' => String c r'
      end
  end.

(** [path.split('/')]: the pieces between slashes; never the empty list. *)
Fixpoint split (s : string) : list string :=
  match s with
  | EmptyString => [EmptyString]
  | String c r =>
      if is_slash c then EmptyString :: split r
      else match split r with
           | [] => [String c EmptyString]
           | p :: ps => String c p :: ps
           end
  end.

(** No slash occurs in the string. *)
Fixpoint slashFree (s : string) : bool :=
  match s with
  | EmptyString => true
  | String c r => negb (is_slash c) && slashFree r
  end.

(** A path segment of the data model: not empty, no separator inside. *)
Definition segment (s : string) : bool :=
  negb (String.eqb s EmptyString) && slashFree s.

(** The path string of a segment sequence; the root is the empty string. *)
Fixpoint pathOf (segs : list string) : string :=
  match segs with
  | [] => EmptyString
  | s :: r => String slash (String.append s (pathOf r))
  end.

End JsString.

(** * Values *)

(** The values an event name, an object type or an extra emit argument takes
    here: [undefined], [null] or a string. *)
Inductive jsval :=
| JUndefined
| JNull
| JStr (s : string).

#[global] Instance jsval_eq_dec : EqDecision jsval.
Proof. solve_decision. Defined.

(** Strict equality [===] on these values. *)
Definition strictEq (a b : jsval) : bool := bool_decide (a = b).

(** What the sources raise.  [InvalidTypes] and [InvalidName] are the two
    [throw new Error] sites of [matchFilter]; [TypeError] is the runtime's own
    error on property access through [undefined] or [null]. *)
Inductive error :=
| InvalidTypes
| InvalidName
| TypeError.

Inductive outcome (A : Type) :=
| Return (a : A)
| Throw (e : error).
Arguments Return {A} a.
Arguments Throw {A} e.

(** * Bubbler *)

Module Bubbler.

(** ** Filters *)

(** The value of a filter's [types] or [names] property, by the tests
    [matchFilter] runs on it: [typeof x === 'undefined'], [_.isArray(x)],
    [_.isString(x)], and whatever is left. *)
Inductive constraint :=
| CUndefined
| CArray (items : list jsval)
| CString (s : string)
| COther.

Record eventFilter := Filter { types : constraint; names : constraint }.

(** [subscribe] wraps a missing [filters] option as the array [[false]];
    reading [types] or [names] off [false] gives [undefined]. *)
Definition noFilter : eventFilter := Filter CUndefined CUndefined.

Module Underscore.
(** [_.contains(list, x)]: membership by strict equality. *)
Definition contains (l : list jsval) (x : jsval) : bool :=
  existsb (strictEq x) l.
End Underscore.

(** One constraint of one filter decides to go on, to answer [false], or to
    raise. *)
Inductive verdict :=
| Pass
| Reject
| Raise (e : error).

(** The [types] cascade of [matchFilter]; [thisFilter.types != type] is the
    loose comparison of a string with [undefined], [null] or a string. *)
Definition checkTypes (c : constraint) (type : jsval) : verdict :=
  match c with
  | CUndefined => Pass
  | CArray items =>
      if (0 <? length items)%nat && negb (Underscore.contains items type)
      then Reject else Pass
  | CString s => if negb (strictEq (JStr s) type) then Reject else Pass
  | COther => Raise InvalidTypes
  end.

(** The [names] cascade; its first test also lets the empty string through. *)
Definition checkNames (c : constraint) (eventName : jsval) : verdict :=
  match c with
  | CUndefined => Pass
  | CString EmptyString => Pass
  | CArray items =>
      if (0 <? length items)%nat && negb (Underscore.contains items eventName)
      then Reject else Pass
  | CString s => if negb (strictEq (JStr s) eventName) then Reject else Pass
  | COther => Raise InvalidName
  end.

(** [matchFilter(eventName, type, filters)]: the loop over the filters, left
    at the first [return false] or [throw]. *)
Fixpoint matchFilter (eventName type : jsval) (filters : list eventFilter)
  : outcome bool :=
  match filters with
  | [] => Return true
  | thisFilter :: rest =>
      match checkTypes (types thisFilter) type with
      | Reject => Return false
      | Raise e => Throw e
      | Pass =>
          match checkNames (names thisFilter) eventName with
          | Reject => Return false
          | Raise e => Throw e
          | Pass => matchFilter eventName type rest
          end
      end
  end.

(** ** The event emitter the Bubbler builds on *)

(** A callback handed to [subscribe].  The bookkeeping object is indexed by
    the callback itself, that is by the string it converts to. *)
Record callback := Callback { cb_id : nat; cb_text : string }.

(** The closure [filteredCallback] that [subscribe] registers: its identity
    and what it captures. *)
Record listener := Listener {
  l_id : nat;
  l_callback : callback;
  l_filters : list eventFilter;
  l_triggered : bool
}.

(** Identity of two closures ([===], and what [_.contains] tests). *)
Definition sameListener (a b : listener) : bool := Nat.eqb (l_id a) (l_id b).

(** The event source descriptor; [None] is a property that was never set. *)
Record source := Source {
  src_path : string;
  src_triggered : bool;
  src_obj : option jsval;
  src_type : option jsval
}.

(** The array [[path, event, source, ...extra]] that [emit] builds and
    [bubbleEvent] rewrites at index 0. *)
Record emitArgs := EmitArgs {
  arg_path : string;
  arg_event : jsval;
  arg_source : source;
  arg_extra : list jsval
}.

(** One element of an argument list. *)
Inductive arg :=
| AVal (v : jsval)
| ASource (s : source).

Definition argsArray (a : emitArgs) : list arg :=
  AVal (JStr (arg_path a)) :: AVal (arg_event a) :: ASource (arg_source a)
    :: map AVal (arg_extra a).

(** What a listener is called with: [bus.emit(type, ...rest)] hands [rest] to
    every listener of [type]. *)
Definition listenerArguments (a : emitArgs) : list arg := tail (argsArray a).

Inductive busId := DirectBus | BubbleBus.

(** What an emission does, in order: the calls [bus.emit.apply(bus, args)]
    and, inside a listener that lets the event through, the calls
    [callback.apply(null, arguments)]. *)
Inductive action :=
| BusEmit (bus : busId) (args : list arg)
| Invoke (l : listener) (arguments : list arg).

Module EventEmitter.

(** Listeners by event type, in registration order. *)
Abbreviation t := (gmap string (list listener)).

Definition listeners (e : t) (type : string) : list listener :=
  default [] (e !! type).

Definition on (e : t) (type : string) (l : listener) : t :=
  <[type := listeners e type ++ [l]]> e.

Definition removeAllListeners (e : t) (type : string) : t := delete type e.

(** The scan of [removeListener], from the end of the array: the array
    without the last occurrence of the closure, if there is one. *)
Fixpoint removeLast (l : listener) (ls : list listener)
  : option (list listener) :=
  match ls with
  | [] => None
  | x :: rest =>
      match removeLast l rest with
      | Some rest' => Some (x :: rest')
      | None => if sameListener x l then Some rest else None
      end
  end.

(** [removeListener(type, listener)]: the last occurrence goes; an array
    left empty is dropped with its key. *)
Definition removeListener (e : t) (type : string) (l : listener) : t :=
  match e !! type with
  | None => e
  | Some ls =>
      match removeLast l ls with
      | None => e
      | Some [] => delete type e
      | Some ls' => <[type := ls']> e
      end
  end.

End EventEmitter.

(** ** The Bubbler object *)

(** [this.$store], as far as [emit] uses it: the object and the type found at
    a path, or [None] when [get] or [getType] throws. *)
Abbreviation storeView := (string -> option (jsval * jsval)).

Record t := Make {
  eventBus : gmap string (list listener);
  bubbleBus : gmap string (list listener);
  callbacks : gmap string listener;
  store : option storeView;
  closures : nat
}.

(** [new Bubbler(store)] *)
Definition new (store : option storeView) : t :=
  Make ∅ ∅ ∅ store 0.

(** The [filters] option: missing (or falsy), one filter, or an array. *)
Inductive filtersOption :=
| FiltersAbsent
| FiltersOne (f : eventFilter)
| FiltersArray (fs : list eventFilter).

Record options := Options {
  opt_bubble : option bool;
  opt_filters : filtersOption;
  opt_triggered : option bool
}.

Definition noOptions : options := Options None FiltersAbsent None.

(** [filters = options.filters || false], then wrapped unless an array. *)
Definition filtersArray (f : filtersOption) : list eventFilter :=
  match f with
  | FiltersAbsent => [noFilter]
  | FiltersOne f => [f]
  | FiltersArray fs => fs
  end.

(** The event argument of [emit]: a plain name, or an object with [name] and
    [triggered]. *)
Inductive eventArg :=
| EventName (name : jsval)
| EventObject (name : jsval) (triggered : bool).

(** The effects of a call, in order, and how it ended. *)
Abbreviation run A := (list action * outcome A)%type.

(** The body of [filteredCallback(event, source)].  [filters] is an array
    there, so [!filters] is false. *)
Definition filteredCallback (l : listener) (a : emitArgs) : run unit :=
  let type := default JUndefined (src_type (arg_source a)) in
  match matchFilter (arg_event a) type (l_filters l) with
  | Throw e => ([], Throw e)
  | Return matched =>
      if matched && (l_triggered l || negb (src_triggered (arg_source a)))
      then ([Invoke l (listenerArguments a)], Return tt)
      else ([], Return tt)
  end.

(** The listeners of one event type are called in order; an exception leaves
    the loop. *)
Fixpoint callListeners (ls : list listener) (a : emitArgs) : run unit :=
  match ls with
  | [] => ([], Return tt)
  | l :: rest =>
      match filteredCallback l a with
      | (t, Throw e) => (t, Throw e)
      | (t, Return _) =>
          let '(t', r) := callListeners rest a in (t ++ t', r)
      end
  end.

(** [bus.emit.apply(bus, args)]: the event type is [args[0]]. *)
Definition busEmit (id : busId) (bus : gmap string (list listener))
    (a : emitArgs) : run unit :=
  let '(t, r) := callListeners (EventEmitter.listeners bus (arg_path a)) a in
  (BusEmit id (argsArray a) :: t, r).

(** [args[0] = path] *)
Definition setArg0 (path : string) (a : emitArgs) : emitArgs :=
  EmitArgs path (arg_event a) (arg_source a) (arg_extra a).

Definition inspect {A : Type} (a : A) : {b : A | a = b} := exist _ a eq_refl.

(** [bubbleEvent(path, event, bus, args)]: climbs from [path] towards the
    root, one [lastIndexOf('/')] at a time.  The array [args] is shared by all
    the steps, so it is threaded through and handed back.  The parameters
    [event], [type] and [source] of the source only feed the log. *)
Equations? bubbleEvent (path : string) (bus : gmap string (list listener))
    (args : emitArgs) : emitArgs * run unit
    by wf (String.length path) lt :=
bubbleEvent path bus args with inspect (JsString.lastIndexOf path) := {
  | exist _ None _ => (args, ([], Return tt))
  | exist _ (Some lastSlash) Hslash =>
      let path' := substring 0 lastSlash path in
      if String.eqb path' EmptyString then
        let args' := setArg0 "/" args in
        (args', busEmit BubbleBus bus args')
      else
        let args' := setArg0 path' args in
        match busEmit BubbleBus bus args' with
        | (t, Throw e) => (args', (t, Throw e))
        | (t, Return _) =>
            let '(args'', (t', r)) := bubbleEvent path' bus args' in
            (args'', (t ++ t', r))
        end }.
Proof.
  subst path'. clear - Hslash. revert lastSlash Hslash.
  induction path as [|c r IH]; intros i Hi; simpl in Hi; [discriminate|].
  destruct (JsString.lastIndexOf r) as [j|] eqn:Hr.
  - injection Hi as <-. specialize (IH j eq_refl). simpl. lia.
  - destruct (JsString.is_slash c); [|discriminate].
    injection Hi as <-. simpl. lia.
Qed.

(** [_.union(a, b)]: the elements of both, each closure once. *)
Fixpoint uniqListeners (seen ls : list listener) : list listener :=
  match ls with
  | [] => []
  | l :: rest =>
      if existsb (sameListener l) seen then uniqListeners seen rest
      else l :: uniqListeners (l :: seen) rest
  end.

Definition unionListeners (a b : list listener) : list listener :=
  uniqListeners [] (a ++ b).

(** [_.contains(listeners, this.$callbacks[key])]; a missing entry reads as
    [undefined], which is no listener. *)
Definition containsListener (ls : list listener) (x : option listener) : bool :=
  match x with
  | Some l => existsb (sameListener l) ls
  | None => false
  end.

Section Methods.

(** [PathUtil.cleanPath] is not part of the sources at hand; the methods take
    it as given. *)
Variable cleanPath : string -> string.

(** [subscribe(path, callback, options)] *)
Definition subscribe (b : t) (path : string) (callback : callback)
    (opts : option options) : t :=
  let opts := default noOptions opts in
  let bubble := default true (opt_bubble opts) in
  let filters := filtersArray (opt_filters opts) in
  let triggered := default true (opt_triggered opts) in
  let path := cleanPath path in
  let wrapper := Listener (closures b) callback filters triggered in
  Make
    (EventEmitter.on (eventBus b) path wrapper)
    (if bubble then EventEmitter.on (bubbleBus b) path wrapper else bubbleBus b)
    (<[cb_text callback := wrapper]> (callbacks b))
    (store b)
    (S (closures b)).

(** [unsubscribe(path, callback)] *)
Definition unsubscribe (b : t) (path : string) (callback : callback) : t :=
  let path := cleanPath path in
  match callbacks b !! cb_text callback with
  | Some wrapper =>
      Make
        (EventEmitter.removeListener (eventBus b) path wrapper)
        (EventEmitter.removeListener (bubbleBus b) path wrapper)
        (delete (cb_text callback) (callbacks b))
        (store b)
        (closures b)
  | None =>
      Make (eventBus b) (bubbleBus b)
           (delete (cb_text callback) (callbacks b)) (store b) (closures b)
  end.

(** [event === 'delete'] *)
Definition isDelete (event : eventArg) : bool :=
  match event with
  | EventName (JStr s) => String.eqb s "delete"
  | _ => false
  end.

(** The source descriptor [emit] builds before it looks at the event's
    shape. *)
Definition describe (b : t) (path : string) (event : eventArg)
    (extra : list jsval) : source :=
  match store b with
  | None => Source path false None None
  | Some view =>
      match isDelete event, extra with
      | true, [type; obj] => Source path false (Some obj) (Some type)
      | _, _ =>
          match view path with
          | Some (obj, type) => Source path false (Some obj) (Some type)
          | None => Source path false (Some JNull) (Some JNull)
          end
      end
  end.

(** [emit(path, event, ...extra)] *)
Definition emit (b : t) (path : string) (event : eventArg)
    (extra : list jsval) : run unit :=
  let path := cleanPath path in
  let source := describe b path event extra in
  let '(source, event) :=
    match event with
    | EventObject name triggered =>
        (Source (src_path source) triggered (src_obj source) (src_type source),
         name)
    | EventName name => (source, name)
    end in
  let args := EmitArgs path event source extra in
  match busEmit DirectBus (eventBus b) args with
  | (t, Throw e) => (t, Throw e)
  | (t, Return _) =>
      let '(_, (t', r)) := bubbleEvent path (bubbleBus b) args in
      (t ++ t', r)
  end.

(** The loop of [clearSubscriptions] over the keys of [this.$callbacks]. *)
Definition dropCallback (ls : list listener) (cbs : gmap string listener)
    (key : string) : gmap string listener :=
  if containsListener ls (cbs !! key) then delete key cbs else cbs.

(** [clearSubscriptions(path)]; the path is used as it comes. *)
Definition clearSubscriptions (b : t) (path : string) : t :=
  let ebListeners := EventEmitter.listeners (eventBus b) path in
  let bubListeners := EventEmitter.listeners (bubbleBus b) path in
  let listeners := unionListeners ebListeners bubListeners in
  let keys := (map_to_list (callbacks b)).*1 in
  Make
    (EventEmitter.removeAllListeners (eventBus b) path)
    (EventEmitter.removeAllListeners (bubbleBus b) path)
    (foldl (dropCallback listeners) (callbacks b) keys)
    (store b)
    (closures b).

(** [setStore(store)] *)
Definition setStore (b : t) (s : option storeView) : t :=
  Make (eventBus b) (bubbleBus b) (callbacks b) s (closures b).

End Methods.

End Bubbler.

(** Modelled from the spec: [PathUtil.cleanPath], the path normalisation
    helper, strips any run of trailing separators; the empty result is the
    root. *)
Definition cleanPath (path : string) : string :=
  JsString.stripTrailingSlashes path.

(** * Store *)

Module Store.

Abbreviation loc := positive.

(** The values of the tree: primitives without own properties, and
    references to objects. *)
Inductive val :=
| VUndefined
| VNull
| VBool (b : bool)
| VNum (n : Z)
| VRef (l : loc).

(** What a call does to the outside, in order: [this.$bubbler.emit(path,
    event)], [obj[key] = v] and [delete obj[key]] on an object. *)
Inductive effect :=
| Emit (path event : string)
| SetProp (l : loc) (key : string) (v : val)
| DeleteProp (l : loc) (key : string).

(** The objects allocated so far, and the effects so far. *)
Record world := World {
  heap : gmap loc (gmap string val);
  log : list effect
}.

(** A computation may change the world, and returns or throws. *)
Definition M (A : Type) : Type := world -> world * outcome A.

Definition ret {A : Type} (a : A) : M A := fun w => (w, Return a).

Definition bind {A B : Type} (m : M A) (k : A -> M B) : M B :=
  fun w =>
    match m w with
    | (w', Return a) => k a w'
    | (w', Throw e) => (w', Throw e)
    end.

Notation "'do' x <- m ; k" := (bind m (fun x => k))
  (at level 10, x name, m at level 100, k at level 200).
Notation "m ;; k" := (bind m (fun _ => k))
  (at level 100, k at level 200, right associativity).

(** The own properties of the object at [l]. *)
Definition object (w : world) (l : loc) : gmap string val :=
  default ∅ (heap w !! l).

(** Modelled from the spec: [new Map()], whose module [core/map] is not
    among the sources.  A Node is a mapping from string keys to values; a
    new one is a fresh object without own properties. *)
Definition newMap : M val :=
  fun w =>
    let l := fresh (dom (heap w)) in
    (World (<[l := ∅]> (heap w)) (log w), Return (VRef l)).

(** [this.$bubbler.emit(path, event)]: the call is recorded. *)
Definition emit (path event : string) : M unit :=
  fun w => (World (heap w) (log w ++ [Emit path event]), Return tt).

Section Underscore.

(** Whether the underscore at hand guards [_.has] and [_.keys] against
    [undefined], [null] and primitives (later releases do) or passes them to
    [hasOwnProperty.call] and [Object.keys] (the releases of the time). *)
Variable nullGuard : bool.

(** [_.has(obj, key)] *)
Definition has (obj : val) (key : string) : M bool :=
  fun w =>
    match obj with
    | VRef l => (w, Return (bool_decide (is_Some (object w l !! key))))
    | VUndefined | VNull =>
        if nullGuard then (w, Return false) else (w, Throw TypeError)
    | VBool _ | VNum _ => (w, Return false)
    end.

(** [obj[key]] *)
Definition getProp (obj : val) (key : string) : M val :=
  fun w =>
    match obj with
    | VRef l => (w, Return (default VUndefined (object w l !! key)))
    | VUndefined | VNull => (w, Throw TypeError)
    | VBool _ | VNum _ => (w, Return VUndefined)
    end.

(** [obj[key] = v]; on a primitive the assignment is dropped. *)
Definition setProp (obj : val) (key : string) (v : val) : M unit :=
  fun w =>
    match obj with
    | VRef l =>
        (World (<[l := <[key := v]> (object w l)]> (heap w))
               (log w ++ [SetProp l key v]), Return tt)
    | VUndefined | VNull => (w, Throw TypeError)
    | VBool _ | VNum _ => (w, Return tt)
    end.

(** [delete obj[key]] *)
Definition deleteProp (obj : val) (key : string) : M unit :=
  fun w =>
    match obj with
    | VRef l =>
        (World (<[l := delete key (object w l)]> (heap w))
               (log w ++ [DeleteProp l key]), Return tt)
    | VUndefined | VNull => (w, Throw TypeError)
    | VBool _ | VNum _ => (w, Return tt)
    end.

(** What [parsePath] returns when it does not return [false]. *)
Record nodes := Nodes {
  parent : val;
  current : val;
  dirName : option string;
  created : bool
}.

(** The [while] loop of [parsePath], on the layers still to visit. *)
Fixpoint walk (create : bool) (layers : list string)
    (parentNode curNode : val) (thisLayer : option string) (created : bool)
  : M (option nodes) :=
  match layers with
  | [] => ret (Some (Nodes parentNode curNode thisLayer created))
  | layer :: layers =>
      let thisLayer := String JsString.slash layer in
      do present <- has curNode thisLayer;
      if present then
        do next <- getProp curNode thisLayer;
        walk create layers curNode next (Some thisLayer) created
      else if create then
        do again <- has curNode thisLayer;
        do created <-
          (if again then ret created
           else do m <- newMap; setProp curNode thisLayer m;; ret true);
        do next <- getProp curNode thisLayer;
        walk create layers curNode next (Some thisLayer) created
      else ret None
  end.

(** [parsePath(path, data, create)]; [None] is the [false] it returns on a
    missing layer. *)
Definition parsePath (path : string) (data : val) (create : bool)
  : M (option nodes) :=
  let layers := tail (JsString.split path) in
  walk create layers VNull data None false.

(** Reading a field off the result of [parsePath]: off [false] every field
    reads as [undefined]. *)
Definition currentOf (r : option nodes) : val :=
  from_option current VUndefined r.
Definition parentOf (r : option nodes) : val :=
  from_option parent VUndefined r.
Definition createdOf (r : option nodes) : bool :=
  from_option created false r.
(** [nodes.dirName] as a property key. *)
Definition dirNameOf (r : option nodes) : string :=
  default "undefined" (r ≫= dirName).

(** A store: [this.$data]. *)
Record t := Make { data : val }.

(** [new Store(bubbler)] *)
Definition new : M t := do d <- newMap; ret (Make d).

(** [save(path, key, val)] *)
Definition save (this : t) (path key : string) (v : val) : M unit :=
  let path := JsString.stripTrailingSlashes path in
  do nodes <- parsePath path (data this) true;
  let createMode := createdOf nodes in
  do createMode <-
    (if createMode then
       do present <- has (currentOf nodes) key;
       if negb present then ret true else ret createMode
     else ret createMode);
  (if createMode then emit path "pre-create" else ret tt);;
  emit path "pre-update";;
  setProp (currentOf nodes) key v;;
  (if createMode then emit path "post-create" else ret tt);;
  emit path "post-update".

(** [delete(path, key)]; [key = None] is the call without a key. *)
Definition delete (this : t) (path : string) (key : option string) : M bool :=
  let path := JsString.stripTrailingSlashes path in
  do nodes <- parsePath path (data this) false;
  match key with
  | None =>
      emit path "pre-delete";;
      deleteProp (parentOf nodes) (dirNameOf nodes);;
      emit path "post-delete";;
      ret true
  | Some key =>
      do present <- has (currentOf nodes) key;
      if negb present then ret false
      else
        emit path "pre-delete";;
        deleteProp (currentOf nodes) key;;
        emit path "post-delete";;
        ret true
  end.

(** The second argument of [get]: a key, or a boolean taken for the
    [recursive] flag. *)
Inductive keyArg :=
| Key (s : string)
| Flag (b : bool).

(** What [get] returns: a value of the tree, or the fresh object [_.pick]
    builds. *)
Inductive got :=
| Value (v : val)
| Picked (o : gmap string val).

(** [key.match(/^\//)] *)
Definition childKey (key : string) : bool :=
  match key with
  | String c _ => JsString.is_slash c
  | EmptyString => false
  end.

(** [_.pick(obj, keys)] for the keys of [obj] that name no child. *)
Definition pickLeaves (obj : val) : M got :=
  fun w =>
    match obj with
    | VRef l =>
        (w, Return (Picked (filter (fun kv => childKey kv.1 = false)
                                   (object w l))))
    | _ => if nullGuard then (w, Return (Picked ∅)) else (w, Throw TypeError)
    end.

(** [get(path, key, recursive)] *)
Definition get (this : t) (path : string) (key : option keyArg)
    (recursive : option bool) : M got :=
  let path := JsString.stripTrailingSlashes path in
  do nodes <- parsePath path (data this) false;
  match key with
  | Some (Key key) =>
      do present <- has (currentOf nodes) key;
      if negb present then ret (Value VUndefined)
      else do v <- getProp (currentOf nodes) key; ret (Value v)
  | _ =>
      let recursive :=
        match recursive, key with
        | Some r, _ => r
        | None, Some (Flag b) => b
        | None, _ => false
        end in
      if recursive then ret (Value (currentOf nodes))
      else pickLeaves (currentOf nodes)
  end.

(** [exists(path, key)] *)
Definition exists_ (this : t) (path : string) (key : option string) : M bool :=
  let path := JsString.stripTrailingSlashes path in
  do nodes <- parsePath path (data this) false;
  match nodes, key with
  | None, _ => ret false
  | Some _, None => ret true
  | Some _, Some key => has (currentOf nodes) key
  end.

End Underscore.

End Store.

(** * The Giza facade *)

Module Giza.

(** A facade instance: [this.$bubbler], [this.$store], and the objects the
    store lives in. *)
Record t := Make {
  gBubbler : Bubbler.t;
  gStore : Store.t;
  gWorld : Store.world
}.

(** The options of the facade's [get]. *)
Record getOptions := GetOptions {
  get_recursive : bool;
  get_callback : option Bubbler.callback
}.

Section Facade.

Variable cleanPath : string -> string.
Variable nullGuard : bool.

(** [new Giza()], with the default assembler, which the store does not look
    at: the bubbler is built without a store. *)
Definition new (w : Store.world) : t :=
  let l := fresh (dom (Store.heap w)) in
  Make (Bubbler.new None) (Store.Make (Store.VRef l))
       (Store.World (<[l := ∅]> (Store.heap w)) (Store.log w)).

(** [save(path, val, type)] hands its arguments to the store's [save]. *)
Definition save (g : t) (path key : string) (v : Store.val)
  : t * outcome unit :=
  let '(w, r) := Store.save nullGuard (gStore g) path key v (gWorld g) in
  (Make (gBubbler g) (gStore g) w, r).

(** [get(path, options)]: the options object reaches the store's [get] as its
    key, where it is used as the property name it converts to; the callback,
    if any, is subscribed with [recursive] in the place of the options, which
    has none of the properties [subscribe] reads. *)
Definition get (g : t) (path : string) (opts : getOptions)
  : t * outcome Store.got :=
  let '(w, r) :=
    Store.get nullGuard (gStore g) path (Some (Store.Key "[object Object]"))
              None (gWorld g) in
  match r with
  | Throw e => (Make (gBubbler g) (gStore g) w, Throw e)
  | Return obj =>
      let b :=
        match get_callback opts with
        | Some cb => Bubbler.subscribe cleanPath (gBubbler g) path cb None
        | None => gBubbler g
        end in
      (Make b (gStore g) w, Return obj)
  end.

(** [subscribe(path, callback, bubble)] hands its arguments to the bubbler's
    [subscribe]. *)
Definition subscribe (g : t) (path : string) (cb : Bubbler.callback)
    (opts : option Bubbler.options) : t :=
  Make (Bubbler.subscribe cleanPath (gBubbler g) path cb opts) (gStore g)
       (gWorld g).

(** [emit(path, event)] hands its arguments to the bubbler's [emit]. *)
Definition emit (g : t) (path : string) (event : Bubbler.eventArg)
    (extra : list jsval) : Bubbler.run unit :=
  Bubbler.emit cleanPath (gBubbler g) path event extra.

(** The instances that calls on the facade lead to. *)
Inductive reachable : t -> Prop :=
| reach_new w : reachable (new w)
| reach_save g path key v : reachable g -> reachable (save g path key v).1
| reach_get g path opts : reachable g -> reachable (get g path opts).1
| reach_subscribe g path cb opts :
    reachable g -> reachable (subscribe g path cb opts).

End Facade.

End Giza.

(** * The filter rule in the words of the specification *)

Module Spec.

Import Bubbler.

Definition isString (v : jsval) : bool :=
  match v with
  | JStr _ => true
  | _ => false
  end.

(** A constraint matches a value when it is absent, or a single name equal
    to the value, or a non-empty list containing it; an empty list is no
    constraint. *)
Definition constraintMatches (c : constraint) (x : jsval) : bool :=
  match c with
  | CUndefined => true
  | CString s => strictEq (JStr s) x
  | CArray [] => true
  | CArray items => Underscore.contains items x
  | COther => false
  end.

(** A filter matches on its types against the type and, symmetrically, on its
    names against the event name. *)
Definition filterMatches (eventName type : jsval) (f : eventFilter) : bool :=
  constraintMatches (types f) type && constraintMatches (names f) eventName.

(** Neither a string nor a list of strings. *)
Definition invalidConstraint (c : constraint) : bool :=
  match c with
  | COther => true
  | CArray items => negb (forallb isString items)
  | _ => false
  end.

Definition invalidFilter (f : eventFilter) : bool :=
  invalidConstraint (types f) || invalidConstraint (names f).

End Spec.

(** * What the code lets through *)

(** The [types] constraint [c] lets the type through. *)
Definition typesPass (c : Bubbler.constraint) (type : jsval) : Prop :=
  match c with
  | Bubbler.CUndefined => True
  | Bubbler.CArray items => items = [] \/ type ∈ items
  | Bubbler.CString s => type = JStr s
  | Bubbler.COther => False
  end.

(** The [names] constraint [c] lets the event name through. *)
Definition namesPass (c : Bubbler.constraint) (eventName : jsval) : Prop :=
  c = Bubbler.CString EmptyString \/ typesPass c eventName.

(** Both constraints of a filter let the event through. *)
Definition filterPasses (eventName type : jsval) (f : Bubbler.eventFilter)
  : Prop :=
  typesPass (Bubbler.types f) type /\ namesPass (Bubbler.names f) eventName.

(** The filter stops the loop with an exception: on its types, or on its
    names after its types passed. *)
Definition filterRaises (eventName type : jsval) (f : Bubbler.eventFilter)
    (e : error) : Prop :=
  (Bubbler.types f = Bubbler.COther /\ e = InvalidTypes)
  \/ (typesPass (Bubbler.types f) type
      /\ Bubbler.names f = Bubbler.COther /\ e = InvalidName).

(** The filter stops the loop with [false]. *)
Definition filterRejects (eventName type : jsval) (f : Bubbler.eventFilter)
  : Prop :=
  (Bubbler.types f <> Bubbler.COther /\ ~ typesPass (Bubbler.types f) type)
  \/ (typesPass (Bubbler.types f) type
      /\ Bubbler.names f <> Bubbler.COther
      /\ ~ namesPass (Bubbler.names f) eventName).

(** * Where a closure listens *)

(** The closure [l] is among the listeners of the direct or of the bubble bus
    at [path]. *)
Definition listensAt (b : Bubbler.t) (path : string) (l : Bubbler.listener)
  : Prop :=
  exists l',
    l' ∈ Bubbler.EventEmitter.listeners (Bubbler.eventBus b) path
         ++ Bubbler.EventEmitter.listeners (Bubbler.bubbleBus b) path
    /\ Bubbler.l_id l' = Bubbler.l_id l.

(** * The climb of an emission *)

(** The proper prefixes of a segment sequence, the longest first. *)
Fixpoint properPrefixes (segs : list string) : list (list string) :=
  match segs with
  | [] => []
  | s :: rest => map (cons s) (properPrefixes rest) ++ [[]]
  end.

(** The event type a node is bubbled to under: its path, and ["/"] for the
    root. *)
Definition channelOf (segs : list string) : string :=
  match segs with
  | [] => "/"
  | _ => JsString.pathOf segs
  end.

(** The strict ancestors of a path, from its parent up to the root. *)
Definition ancestorsOf (segs : list string) : list string :=
  map channelOf (properPrefixes segs).

(** The calls [bus.emit.apply(bus, args)] of a run: the bus and [args[0]]. *)
Definition dispatches (t : list Bubbler.action)
  : list (Bubbler.busId * option Bubbler.arg) :=
  omap (fun a =>
          match a with
          | Bubbler.BusEmit id args => Some (id, head args)
          | Bubbler.Invoke _ _ => None
          end) t.

(** The argument arrays handed to the bubble bus in a run. *)
Definition bubbleArgs (t : list Bubbler.action) : list (list Bubbler.arg) :=
  omap (fun a =>
          match a with
          | Bubbler.BusEmit Bubbler.BubbleBus args => Some args
          | _ => None
          end) t.

(** No constraint of the filter makes [matchFilter] raise. *)
Definition validFilter (f : Bubbler.eventFilter) : Prop :=
  Bubbler.types f <> Bubbler.COther /\ Bubbler.names f <> Bubbler.COther.

(** Every listener on either bus has valid filters only. *)
Definition wellFiltered (b : Bubbler.t) : Prop :=
  let ok := fun (_ : string) (ls : list Bubbler.listener) =>
              Forall (fun l => Forall validFilter (Bubbler.l_filters l)) ls in
  map_Forall ok (Bubbler.eventBus b) /\ map_Forall ok (Bubbler.bubbleBus b).

(** What the listeners [ls] do with the arguments [a] when none raises. *)
Definition invocations (ls : list Bubbler.listener) (a : Bubbler.emitArgs)
  : list Bubbler.action :=
  flat_map (fun l => (Bubbler.filteredCallback l a).1) ls.

(** One call [bus.emit.apply(bus, a)] and what its listeners do. *)
Definition dispatchTrace (id : Bubbler.busId)
    (bus : gmap string (list Bubbler.listener)) (a : Bubbler.emitArgs)
  : list Bubbler.action :=
  Bubbler.BusEmit id (Bubbler.argsArray a)
    :: invocations (Bubbler.EventEmitter.listeners bus (Bubbler.arg_path a)) a.

(** The array [bubbleEvent] hands back: rewritten last for the root, or
    untouched when there was nothing to climb. *)
Definition argsAfterClimb (segs : list string) (a : Bubbler.emitArgs)
  : Bubbler.emitArgs :=
  match segs with
  | [] => a
  | _ => Bubbler.setArg0 "/" a
  end.

(** An action that stems from the argument array [a] with only its index 0
    rewritten: a bus call on such an array, or the call of a callback with
    the rest of the array, after its filters let the event through. *)
Definition stemsFrom (a : Bubbler.emitArgs) (act : Bubbler.action) : Prop :=
  match act with
  | Bubbler.BusEmit _ args =>
      exists p, args = Bubbler.argsArray (Bubbler.setArg0 p a)
  | Bubbler.Invoke l args =>
      args = Bubbler.listenerArguments a
      /\ Bubbler.matchFilter (Bubbler.arg_event a)
           (default JUndefined (Bubbler.src_type (Bubbler.arg_source a)))
           (Bubbler.l_filters l) = Return true
  end.

(** The event name [emit] dispatches. *)
Definition eventNameOf (event : Bubbler.eventArg) : jsval :=
  match event with
  | Bubbler.EventName name => name
  | Bubbler.EventObject name _ => name
  end.

(** A types constraint that names types: a string, or a non-empty list of
    strings. *)
Definition namesTypes (c : Bubbler.constraint) : Prop :=
  match c with
  | Bubbler.CString _ => True
  | Bubbler.CArray items =>
      items <> [] /\ Forall (fun v => exists s, v = JStr s) items
  | _ => False
  end.

(** Whether a structured event carries [triggered]. *)
Definition triggeredOf (event : Bubbler.eventArg) : bool :=
  match event with
  | Bubbler.EventName _ => false
  | Bubbler.EventObject _ triggered => triggered
  end.

(** The array [[path, event, source, ...extra]] that [emit] builds. *)
Definition emitArgsOf (cleanPath : string -> string) (b : Bubbler.t)
    (path : string) (event : Bubbler.eventArg) (extra : list jsval)
  : Bubbler.emitArgs :=
  let src := Bubbler.describe b (cleanPath path) event extra in
  Bubbler.EmitArgs (cleanPath path) (eventNameOf event)
    (Bubbler.Source (Bubbler.src_path src) (triggeredOf event)
                    (Bubbler.src_obj src) (Bubbler.src_type src))
    extra.

#[global] Instance callback_eq_dec : EqDecision Bubbler.callback.
Proof. solve_decision. Defined.

(** The argument lists the callback [cb] is called with in a run. *)
Definition calls (cb : Bubbler.callback) (t : list Bubbler.action)
  : list (list Bubbler.arg) :=
  omap (fun act =>
          match act with
          | Bubbler.Invoke l args =>
              if decide (Bubbler.l_callback l = cb) then Some args else None
          | Bubbler.BusEmit _ _ => None
          end) t.

(** * The tree invariant of the store *)

(** The Node invariant of the data model: in every object, a key with the
    child prefix holds a reference to an object. *)
Definition nodeInvariant (w : Store.world) : Prop :=
  forall (l : Store.loc) (k : string) (x : Store.val),
    Store.childKey k = true ->
    Store.object w l !! k = Some x ->
    exists l', x = Store.VRef l'.

(** The child entries of [w] are still there in [w']. *)
Definition keepsChildren (w w' : Store.world) : Prop :=
  forall (l : Store.loc) (k : string) (x : Store.val),
    Store.childKey k = true ->
    Store.object w l !! k = Some x ->
    Store.object w' l !! k = Some x.

(** The world after [new Map()] and [obj[key] = m] on the object at [l]. *)
Definition withChild (w : Store.world) (l : Store.loc) (key : string)
  : Store.world :=
  let n := fresh (dom (Store.heap w)) in
  let w' := Store.World (<[n := ∅]> (Store.heap w)) (Store.log w) in
  Store.World
    (<[l := <[key := Store.VRef n]> (Store.object w' l)]> (Store.heap w'))
    (Store.log w ++ [Store.SetProp l key (Store.VRef n)]).

(** * Resolution as a yes or no *)

(** Whether [parsePath] finds the path without creating anything. *)
Definition resolves (nullGuard : bool) (this : Store.t) (path : string)
    (w : Store.world) : bool :=
  match (Store.parsePath nullGuard (JsString.stripTrailingSlashes path)
           (Store.data this) false w).2 with
  | Return (Some _) => true
  | _ => false
  end.

(** The layers [parsePath] walks for a path. *)
Definition layersOf (path : string) : list string :=
  tail (JsString.split (JsString.stripTrailingSlashes path)).

(** The closure [subscribe] builds on the bubbler [b]. *)
Definition wrapperOf (b : Bubbler.t) (cb : Bubbler.callback)
    (opts : option Bubbler.options) : Bubbler.listener :=
  let o := default Bubbler.noOptions opts in
  Bubbler.Listener (Bubbler.closures b) cb
    (Bubbler.filtersArray (Bubbler.opt_filters o))
    (default true (Bubbler.opt_triggered o)).

(** Whether the subscription asks for bubbled events. *)
Definition bubbles (opts : option Bubbler.options) : bool :=
  default true (Bubbler.opt_bubble (default Bubbler.noOptions opts)).

(** Every closure on either bus was built before the next one to come. *)
Definition closuresBelow (b : Bubbler.t) : Prop :=
  let ok := fun (_ : string) (ls : list Bubbler.listener) =>
              Forall (fun l => Bubbler.l_id l < Bubbler.closures b) ls in
  map_Forall ok (Bubbler.eventBus b) /\ map_Forall ok (Bubbler.bubbleBus b).

(** Whether the closure [l] lets the arguments [a] through to its
    callback. *)
Definition lets (l : Bubbler.listener) (a : Bubbler.emitArgs) : bool :=
  match Bubbler.matchFilter (Bubbler.arg_event a)
          (default JUndefined (Bubbler.src_type (Bubbler.arg_source a)))
          (Bubbler.l_filters l) with
  | Return true =>
      Bubbler.l_triggered l
      || negb (Bubbler.src_triggered (Bubbler.arg_source a))
  | _ => false
  end.

(** What a single subscriber is called with by one dispatch that reaches
    it. *)
Definition delivery (l : Bubbler.listener) (a : Bubbler.emitArgs)
  : list (list Bubbler.arg) :=
  if lets l a then [Bubbler.listenerArguments a] else [].

(** * Properties of [matchFilter] *)

Section MatchFilter.

Import Bubbler.

Lemma contains_elem_of (items : list jsval) (x : jsval) :
  Underscore.contains items x = true <-> x ∈ items.
Proof.
  unfold Underscore.contains, strictEq. rewrite existsb_exists. split.
  - intros (y & Hin & Heq). apply bool_decide_eq_true in Heq. subst y.
    by apply list_elem_of_In.
  - intros Hin. exists x. split; [by apply list_elem_of_In|].
    by apply bool_decide_eq_true.
Qed.

Lemma checkTypes_Pass c type : checkTypes c type = Pass <-> typesPass c type.
Proof.
  destruct c as [|items|s|]; simpl.
  - done.
  - destruct items as [|i items]; [split; [by left|done]|].
    change (checkTypes (CArray (i :: items)) type)
      with (if negb (Underscore.contains (i :: items) type)
            then Reject else Pass).
    destruct (Underscore.contains (i :: items) type) eqn:Hc; simpl.
    + apply contains_elem_of in Hc. split; [by right|done].
    + split; [discriminate|]. intros [?|Hin]; [discriminate|].
      apply contains_elem_of in Hin. congruence.
  - unfold strictEq. case_bool_decide; simpl; split; congruence.
  - split; [discriminate|tauto].
Qed.

Lemma checkTypes_Raise c type e :
  checkTypes c type = Raise e <-> c = COther /\ e = InvalidTypes.
Proof.
  destruct c as [|items|s|]; simpl;
    repeat match goal with |- context [if ?b then _ else _] => destruct b end;
    split; try discriminate; try (intros [? ?]; discriminate).
  - intros [= <-]. tauto.
  - intros [_ ->]. reflexivity.
Qed.

Lemma checkNames_Pass c eventName :
  checkNames c eventName = Pass <-> namesPass c eventName.
Proof.
  unfold namesPass. destruct c as [|items|s|]; simpl.
  - split; [by right|done].
  - rewrite <- (checkTypes_Pass (CArray items) eventName). simpl.
    split; [by right|]. intros [?|?]; [discriminate|done].
  - destruct s as [|a s]; [split; [by left|done]|].
    rewrite <- (checkTypes_Pass (CString (String a s)) eventName). simpl.
    split; [by right|]. intros [?|?]; [discriminate|done].
  - split; [discriminate|]. intros [?|[]]; discriminate.
Qed.

Lemma checkNames_Raise c eventName e :
  checkNames c eventName = Raise e <-> c = COther /\ e = InvalidName.
Proof.
  destruct c as [|items|s|]; simpl; try destruct s;
    repeat match goal with |- context [if ?b then _ else _] => destruct b end;
    split; try discriminate; try (intros [? ?]; discriminate).
  - intros [= <-]. tauto.
  - intros [_ ->]. reflexivity.
Qed.

Lemma filter_verdicts eventName type f :
  match checkTypes (types f) type with
  | Reject => filterRejects eventName type f
  | Raise e => filterRaises eventName type f e
  | Pass =>
      match checkNames (names f) eventName with
      | Reject => filterRejects eventName type f
      | Raise e => filterRaises eventName type f e
      | Pass => filterPasses eventName type f
      end
  end.
Proof.
  unfold filterRejects, filterRaises, filterPasses.
  destruct (checkTypes (types f) type) as [| |e] eqn:Ht.
  - apply checkTypes_Pass in Ht.
    destruct (checkNames (names f) eventName) as [| |e] eqn:Hn.
    + apply checkNames_Pass in Hn. tauto.
    + right. split; [done|]. split.
      * intros Hc. pose proof (checkNames_Raise (names f) eventName InvalidName)
          as [_ H]. rewrite H in Hn; [discriminate|done].
      * rewrite <- checkNames_Pass. congruence.
    + apply checkNames_Raise in Hn. tauto.
  - left. split.
    + intros Hc. pose proof (checkTypes_Raise (types f) type InvalidTypes)
        as [_ H]. rewrite H in Ht; [discriminate|done].
    + rewrite <- checkTypes_Pass. congruence.
  - apply checkTypes_Raise in Ht. tauto.
Qed.

Lemma filter_outcomes_exclusive eventName type f :
  (filterPasses eventName type f -> ~ filterRejects eventName type f)
  /\ (forall e, filterPasses eventName type f ->
                ~ filterRaises eventName type f e)
  /\ (forall e, filterRejects eventName type f ->
                ~ filterRaises eventName type f e).
Proof.
  unfold filterPasses, filterRejects, filterRaises, namesPass.
  destruct (types f), (names f); simpl; intuition congruence.
Qed.

Lemma matchFilter_cons_pass eventName type f rest :
  filterPasses eventName type f ->
  matchFilter eventName type (f :: rest) = matchFilter eventName type rest.
Proof.
  intros Hp. pose proof (filter_verdicts eventName type f) as Hv.
  destruct (filter_outcomes_exclusive eventName type f) as (Hpr & Hpe & _).
  simpl. destruct (checkTypes (types f) type);
    [destruct (checkNames (names f) eventName)|..];
    first [reflexivity | by apply Hpr in Hp | by eapply Hpe in Hp].
Qed.

Lemma matchFilter_cons_reject eventName type f rest :
  filterRejects eventName type f ->
  matchFilter eventName type (f :: rest) = Return false.
Proof.
  intros Hr. pose proof (filter_verdicts eventName type f) as Hv.
  destruct (filter_outcomes_exclusive eventName type f) as (Hpr & _ & Hre).
  simpl. destruct (checkTypes (types f) type);
    [destruct (checkNames (names f) eventName)|..];
    first [reflexivity | by apply Hpr in Hv | by eapply Hre in Hr].
Qed.

Lemma matchFilter_cons_raise eventName type f rest e :
  filterRaises eventName type f e ->
  matchFilter eventName type (f :: rest) = Throw e.
Proof.
  intros Hr. pose proof (filter_verdicts eventName type f) as Hv.
  destruct (filter_outcomes_exclusive eventName type f) as (_ & Hpe & Hre).
  assert (Hinj : forall e', filterRaises eventName type f e' -> e' = e).
  { unfold filterRaises in *. intros e'.
    destruct Hr as [[? ->]|(? & ? & ->)]; intros [[? ->]|(? & ? & ->)];
      try reflexivity; destruct (types f); simpl in *; done. }
  simpl. destruct (checkTypes (types f) type);
    [destruct (checkNames (names f) eventName)|..];
    first [ by eapply Hpe in Hv | by eapply Hre in Hv
          | by rewrite (Hinj _ Hv) ].
Qed.

Lemma filter_trichotomy eventName type f :
  filterPasses eventName type f \/ filterRejects eventName type f
  \/ exists e, filterRaises eventName type f e.
Proof.
  pose proof (filter_verdicts eventName type f) as Hv.
  destruct (checkTypes (types f) type);
    [destruct (checkNames (names f) eventName)|..]; eauto.
Qed.

(** The loop stops at the first filter that does not pass, and that filter
    decides the outcome. *)
Lemma matchFilter_stops eventName type pre f post :
  Forall (filterPasses eventName type) pre ->
  matchFilter eventName type (pre ++ f :: post)
  = matchFilter eventName type (f :: post).
Proof.
  induction 1 as [|g pre Hg _ IH]; [reflexivity|].
  simpl app. by rewrite matchFilter_cons_pass.
Qed.

Lemma matchFilter_cases eventName type filters :
  (Forall (filterPasses eventName type) filters
   /\ matchFilter eventName type filters = Return true)
  \/ exists pre f post,
       filters = pre ++ f :: post
       /\ Forall (filterPasses eventName type) pre
       /\ ((filterRejects eventName type f
            /\ matchFilter eventName type filters = Return false)
           \/ exists e, filterRaises eventName type f e
                        /\ matchFilter eventName type filters = Throw e).
Proof.
  induction filters as [|f rest IH]; [by left|].
  destruct (filter_trichotomy eventName type f) as [Hp|[Hr|[e He]]].
  - rewrite (matchFilter_cons_pass _ _ _ _ Hp).
    destruct IH as [[Hall Hm]|(pre & g & post & -> & Hall & Hout)].
    + left. split; [by constructor|done].
    + right. exists (f :: pre), g, post. split; [done|].
      split; [by constructor|done].
  - right. exists [], f, rest. split; [done|]. split; [constructor|].
    left. split; [done|]. by apply matchFilter_cons_reject.
  - right. exists [], f, rest. split; [done|]. split; [constructor|].
    right. exists e. split; [done|]. by apply matchFilter_cons_raise.
Qed.

End MatchFilter.

(** C6, as amended.  [matchFilter] goes through the filters in order, the
    types of each before its names, and the first constraint that does not
    pass decides: it returns [true] exactly when every constraint of every
    filter passes (absent, an empty array, an array holding the value, a
    string equal to the value, or, for names only, the empty string); it
    returns [false] exactly when the first filter that does not pass holds a
    string or an array that does not match; it raises exactly when the first
    constraint that does not pass is neither absent, an array nor a string. *)
Theorem matchFilter_first_failure_decides
    (eventName type : jsval) (filters : list Bubbler.eventFilter) :
  (Bubbler.matchFilter eventName type filters = Return true
   <-> Forall (filterPasses eventName type) filters)
  /\ (Bubbler.matchFilter eventName type filters = Return false
      <-> exists pre f post,
            filters = pre ++ f :: post
            /\ Forall (filterPasses eventName type) pre
            /\ filterRejects eventName type f)
  /\ (forall e,
        Bubbler.matchFilter eventName type filters = Throw e
        <-> exists pre f post,
              filters = pre ++ f :: post
              /\ Forall (filterPasses eventName type) pre
              /\ filterRaises eventName type f e).
Proof.
  pose proof (matchFilter_cases eventName type filters) as Hcases.
  repeat split.
  - intros Hm. destruct Hcases as [[Hall _]|(pre & f & post & _ & _ & Hout)];
      [done|].
    destruct Hout as [[_ Hf]|(e & _ & Hf)]; congruence.
  - intros Hall. destruct Hcases as [[_ Hm]|(pre & f & post & -> & _ & Hout)];
      [done|].
    apply Forall_app in Hall as [_ Hall]. apply Forall_cons in Hall as [Hf _].
    destruct (filter_outcomes_exclusive eventName type f) as (Hpr & Hpe & _).
    destruct Hout as [[Hr _]|(e & He & _)];
      [by apply Hpr in Hf | by eapply Hpe in Hf].
  - intros Hm. destruct Hcases as [[_ Ht]|(pre & f & post & -> & Hall & Hout)];
      [congruence|].
    exists pre, f, post. repeat split; [done|].
    destruct Hout as [[Hr _]|(e & _ & Hf)]; [done|congruence].
  - intros (pre & f & post & -> & Hall & Hr).
    rewrite matchFilter_stops by done. by apply matchFilter_cons_reject.
  - intros Hm. destruct Hcases as [[_ Ht]|(pre & f & post & -> & Hall & Hout)];
      [congruence|].
    exists pre, f, post. repeat split; [done|].
    destruct Hout as [[_ Hf]|(e' & He' & Hf)]; [congruence|].
    rewrite Hm in Hf. by injection Hf as ->.
  - intros (pre & f & post & -> & Hall & Hr).
    rewrite matchFilter_stops by done. by apply matchFilter_cons_raise.
Qed.

(** C6, as stated, fails.  A names constraint that is the empty string lets
    every event name through, where the rule of the specification asks for
    equality; a value that is neither a string nor a list of strings raises
    nothing once an earlier constraint has answered [false]; and the elements
    of a list are not looked at. *)
Lemma matchFilter_not_the_specified_rule :
  (Bubbler.matchFilter (JStr "update") JUndefined
     [Bubbler.Filter Bubbler.CUndefined (Bubbler.CString "")] = Return true
   /\ Spec.filterMatches (JStr "update") JUndefined
        (Bubbler.Filter Bubbler.CUndefined (Bubbler.CString "")) = false)
  /\ (Bubbler.matchFilter (JStr "update") (JStr "admin")
        [Bubbler.Filter (Bubbler.CString "user") Bubbler.COther] = Return false
      /\ Spec.invalidFilter
           (Bubbler.Filter (Bubbler.CString "user") Bubbler.COther) = true)
  /\ (Bubbler.matchFilter (JStr "update") JUndefined
        [Bubbler.Filter (Bubbler.CArray [JUndefined]) Bubbler.CUndefined]
      = Return true
      /\ Spec.invalidFilter
           (Bubbler.Filter (Bubbler.CArray [JUndefined]) Bubbler.CUndefined)
         = true).
Proof. repeat split; reflexivity. Qed.

(** * Properties of [clearSubscriptions] *)

Section ClearSubscriptions.

Import Bubbler.

Lemma sameListener_trans a b c :
  sameListener a b = true -> sameListener b c = true -> sameListener a c = true.
Proof. unfold sameListener. rewrite !Nat.eqb_eq. congruence. Qed.

Lemma sameListener_sym a b : sameListener a b = sameListener b a.
Proof. unfold sameListener. apply Nat.eqb_sym. Qed.

Lemma existsb_sameListener_congr l l' ls :
  sameListener l l' = true ->
  existsb (sameListener l') ls = true -> existsb (sameListener l) ls = true.
Proof.
  intros Hll. rewrite !existsb_exists. intros (x & Hin & Hx).
  exists x. split; [done|]. by eapply sameListener_trans.
Qed.

Lemma uniqListeners_contains l seen ls :
  existsb (sameListener l) (uniqListeners seen ls)
    || existsb (sameListener l) seen
  = existsb (sameListener l) ls || existsb (sameListener l) seen.
Proof.
  revert seen. induction ls as [|x ls IH]; intros seen; [done|]. simpl.
  destruct (existsb (sameListener x) seen) eqn:Hx.
  - rewrite IH. destruct (sameListener l x) eqn:Hlx; [|done]. simpl.
    rewrite (existsb_sameListener_congr l x seen) by done.
    by rewrite orb_true_r.
  - simpl. destruct (sameListener l x) eqn:Hlx; [done|]. simpl.
    specialize (IH (x :: seen)). simpl in IH. rewrite Hlx in IH. simpl in IH.
    done.
Qed.

Lemma unionListeners_contains l a b :
  containsListener (unionListeners a b) (Some l)
  = existsb (sameListener l) (a ++ b).
Proof.
  unfold unionListeners. simpl.
  pose proof (uniqListeners_contains l [] (a ++ b)) as H. simpl in H.
  by rewrite !orb_false_r in H.
Qed.

Lemma dropCallback_lookup ls cbs k key :
  dropCallback ls cbs k !! key
  = if bool_decide (key = k) && containsListener ls (cbs !! key)
    then None else cbs !! key.
Proof.
  unfold dropCallback. case_bool_decide as Hk; simpl.
  - subst k. destruct (containsListener ls (cbs !! key));
      [apply lookup_delete_eq|done].
  - destruct (containsListener ls (cbs !! k)); [|done].
    by rewrite lookup_delete_ne.
Qed.

Lemma foldl_dropCallback_lookup ls keys cbs key :
  foldl (dropCallback ls) cbs keys !! key
  = if bool_decide (key ∈ keys) && containsListener ls (cbs !! key)
    then None else cbs !! key.
Proof.
  revert cbs. induction keys as [|k keys IH]; intros cbs.
  - by rewrite bool_decide_eq_false_2 by apply not_elem_of_nil.
  - cbn [foldl]. rewrite IH, dropCallback_lookup.
    destruct (decide (key = k)) as [->|Hne].
    + rewrite (bool_decide_eq_true_2 (k = k)) by done.
      rewrite (bool_decide_eq_true_2 (k ∈ k :: keys)) by apply list_elem_of_here.
      simpl. destruct (containsListener ls (cbs !! k)) eqn:Hc; simpl.
      * by rewrite andb_false_r.
      * by rewrite Hc, andb_false_r.
    + rewrite (bool_decide_eq_false_2 (key = k)) by done. simpl.
      destruct (decide (key ∈ keys)) as [Hin|Hnin].
      * rewrite !bool_decide_eq_true_2; [done|by apply list_elem_of_further|done].
      * rewrite !bool_decide_eq_false_2; [done| |done].
        intros [?|?]%elem_of_cons; done.
Qed.

Lemma existsb_sameListener_listensAt b path l :
  existsb (sameListener l)
    (EventEmitter.listeners (eventBus b) path
     ++ EventEmitter.listeners (bubbleBus b) path) = true
  <-> listensAt b path l.
Proof.
  unfold listensAt. rewrite existsb_exists. split.
  - intros (x & Hin & Hx). exists x. split; [by apply list_elem_of_In|].
    unfold sameListener in Hx. apply Nat.eqb_eq in Hx. done.
  - intros (x & Hin & Hx). exists x. split; [by apply list_elem_of_In|].
    unfold sameListener. apply Nat.eqb_eq. done.
Qed.

(** C9.  [clearSubscriptions(path)] leaves no listener at [path] on either
    bus, leaves both buses as they were at every other path, and drops from
    the bookkeeping exactly the entries of the closures that listened at
    [path]. *)
Theorem clearSubscriptions_exactly_at_path (b : Bubbler.t) (path : string) :
  let b' := Bubbler.clearSubscriptions b path in
  EventEmitter.listeners (eventBus b') path = []
  /\ EventEmitter.listeners (bubbleBus b') path = []
  /\ (forall other : string,
        other <> path ->
        eventBus b' !! other = eventBus b !! other
        /\ bubbleBus b' !! other = bubbleBus b !! other)
  /\ (forall (key : string) (l : listener),
        callbacks b' !! key = Some l
        <-> callbacks b !! key = Some l /\ ~ listensAt b path l).
Proof.
  simpl. unfold EventEmitter.listeners at 1 2, EventEmitter.removeAllListeners.
  rewrite !lookup_delete_eq. repeat split; try done.
  - by rewrite lookup_delete_ne.
  - by rewrite lookup_delete_ne.
  - rewrite foldl_dropCallback_lookup in H.
    destruct (_ && _); [discriminate|done].
  - rewrite foldl_dropCallback_lookup in H.
    destruct (bool_decide _ && _) eqn:Hd; [discriminate|].
    rewrite H in Hd. rewrite unionListeners_contains in Hd.
    rewrite <- existsb_sameListener_listensAt. intros Hex. rewrite Hex in Hd.
    rewrite andb_true_r in Hd. apply bool_decide_eq_false in Hd. apply Hd.
    apply list_elem_of_fmap. exists (key, l). split; [done|].
    by apply elem_of_map_to_list.
  - intros [Hl Hn]. rewrite foldl_dropCallback_lookup, Hl.
    rewrite unionListeners_contains.
    destruct (existsb _ _) eqn:Hex;
      [by apply existsb_sameListener_listensAt in Hex|].
    by rewrite andb_false_r.
Qed.

End ClearSubscriptions.

(** * Paths as strings *)

Section Paths.

Import JsString.

Lemma append_cons (x : ascii) (a b : string) :
  String.append (String x a) b = String x (String.append a b).
Proof. reflexivity. Qed.

Lemma append_assoc (a b c : string) :
  String.append (String.append a b) c = String.append a (String.append b c).
Proof.
  induction a as [|x a IH]; [done|]. by rewrite !append_cons, IH.
Qed.

Lemma append_empty_r (a : string) : String.append a EmptyString = a.
Proof. induction a as [|x a IH]; [done|]. by rewrite append_cons, IH. Qed.

Lemma pathOf_app (a b : list string) :
  pathOf (a ++ b) = String.append (pathOf a) (pathOf b).
Proof.
  induction a as [|s a IH]; [done|].
  simpl. by rewrite IH, append_cons, append_assoc.
Qed.

Lemma lastIndexOf_append (p q : string) :
  lastIndexOf (String.append p q)
  = match lastIndexOf q with
    | Some i => Some (String.length p + i)
    | None => lastIndexOf p
    end.
Proof.
  induction p as [|c p IH].
  - change (String.append EmptyString q) with q. by destruct (lastIndexOf q).
  - rewrite append_cons. simpl. rewrite IH. by destruct (lastIndexOf q).
Qed.

Lemma lastIndexOf_slashFree (s : string) :
  slashFree s = true -> lastIndexOf s = None.
Proof.
  induction s as [|c s IH]; simpl; [done|].
  intros [Hc Hs]%andb_true_iff. rewrite (IH Hs).
  by destruct (is_slash c).
Qed.

Lemma substring_prefix (p q : string) :
  substring 0 (String.length p) (String.append p q) = p.
Proof.
  induction p as [|c p IH].
  - change (String.append EmptyString q) with q. by destruct q.
  - rewrite append_cons. simpl. by rewrite IH.
Qed.

Lemma segment_slashFree (s : string) : segment s = true -> slashFree s = true.
Proof. unfold segment. by intros [_ ?]%andb_true_iff. Qed.

(** The last slash of a path sits where its parent ends. *)
Lemma lastIndexOf_pathOf (init : list string) (s : string) :
  slashFree s = true ->
  lastIndexOf (pathOf (init ++ [s])) = Some (String.length (pathOf init)).
Proof.
  intros Hs. rewrite pathOf_app, lastIndexOf_append. simpl.
  rewrite append_empty_r, (lastIndexOf_slashFree s Hs). simpl.
  by rewrite Nat.add_0_r.
Qed.

Lemma substring_pathOf (init : list string) (s : string) :
  substring 0 (String.length (pathOf init)) (pathOf (init ++ [s]))
  = pathOf init.
Proof. rewrite pathOf_app. apply substring_prefix. Qed.

Lemma pathOf_empty (segs : list string) :
  String.eqb (pathOf segs) EmptyString = true <-> segs = [].
Proof. destruct segs; simpl; split; done. Qed.

Lemma properPrefixes_snoc (init : list string) (s : string) :
  properPrefixes (init ++ [s]) = init :: properPrefixes init.
Proof.
  induction init as [|x init IH]; simpl; [done|].
  rewrite IH. simpl. done.
Qed.

Lemma ancestorsOf_snoc (init : list string) (s : string) :
  ancestorsOf (init ++ [s]) = channelOf init :: ancestorsOf init.
Proof. unfold ancestorsOf. by rewrite properPrefixes_snoc. Qed.

(** The root comes last among the ancestors, and only there. *)
Lemma ancestorsOf_root_last (s : string) (rest : list string) :
  s <> EmptyString ->
  exists ups : list string,
    ancestorsOf (s :: rest) = ups ++ ["/"] /\ "/" ∉ ups.
Proof.
  intros Hs. exists (map (fun p => pathOf (s :: p)) (properPrefixes rest)).
  split.
  - unfold ancestorsOf. simpl. rewrite map_app, map_map. done.
  - intros (p & Hp & _)%list_elem_of_fmap. simpl in Hp.
    injection Hp as Hp. destruct s; [done|discriminate].
Qed.

End Paths.

(** * Properties of the dispatch *)

Section Dispatch.

Import Bubbler.

Lemma bubbleEvent_clause path o (H : JsString.lastIndexOf path = o) bus args :
  bubbleEvent_unfold_clause_1 path (exist _ o H) bus args
  = match o with
    | None => (args, ([], Return tt))
    | Some lastSlash =>
        let path' := substring 0 lastSlash path in
        if String.eqb path' EmptyString then
          let args' := setArg0 "/" args in
          (args', busEmit BubbleBus bus args')
        else
          let args' := setArg0 path' args in
          match busEmit BubbleBus bus args' with
          | (t, Throw e) => (args', (t, Throw e))
          | (t, Return _) =>
              let '(args'', (t', r)) := bubbleEvent path' bus args' in
              (args'', (t ++ t', r))
          end
    end.
Proof. destruct o; reflexivity. Qed.

(** The body of [bubbleEvent], as the source has it. *)
Lemma bubbleEvent_unfold path bus args :
  bubbleEvent path bus args
  = match JsString.lastIndexOf path with
    | None => (args, ([], Return tt))
    | Some lastSlash =>
        let path' := substring 0 lastSlash path in
        if String.eqb path' EmptyString then
          let args' := setArg0 "/" args in
          (args', busEmit BubbleBus bus args')
        else
          let args' := setArg0 path' args in
          match busEmit BubbleBus bus args' with
          | (t, Throw e) => (args', (t, Throw e))
          | (t, Return _) =>
              let '(args'', (t', r)) := bubbleEvent path' bus args' in
              (args'', (t ++ t', r))
          end
    end.
Proof.
  rewrite bubbleEvent_equation_1. unfold inspect.
  apply bubbleEvent_clause.
Qed.

Lemma setArg0_setArg0 p q a : setArg0 p (setArg0 q a) = setArg0 p a.
Proof. reflexivity. Qed.

Lemma setArg0_same a : setArg0 (arg_path a) a = a.
Proof. by destruct a. Qed.

Lemma matchFilter_valid eventName type fs :
  Forall validFilter fs ->
  exists m, matchFilter eventName type fs = Return m.
Proof.
  intros Hv.
  destruct (matchFilter_cases eventName type fs)
    as [[_ Hm]|(pre & f & post & -> & _ & [[_ Hm]|(e & Hr & _)])]; eauto.
  apply Forall_app in Hv as [_ Hv]. apply Forall_cons in Hv as [[Ht Hn] _].
  destruct Hr as [[? _]|(_ & ? & _)]; done.
Qed.

Lemma filteredCallback_quiet l a :
  Forall validFilter (l_filters l) ->
  filteredCallback l a = ((filteredCallback l a).1, Return tt).
Proof.
  intros Hv. unfold filteredCallback.
  destruct (matchFilter_valid (arg_event a)
              (default JUndefined (src_type (arg_source a))) _ Hv) as [m ->].
  by destruct (m && _).
Qed.

Lemma callListeners_quiet ls a :
  Forall (fun l => Forall validFilter (l_filters l)) ls ->
  callListeners ls a = (invocations ls a, Return tt).
Proof.
  induction 1 as [|l ls Hl _ IH]; [done|].
  simpl. rewrite (filteredCallback_quiet l a Hl), IH. done.
Qed.

Lemma busEmit_quiet id (bus : gmap string (list listener)) a :
  map_Forall (fun _ ls => Forall (fun l => Forall validFilter (l_filters l)) ls)
             bus ->
  busEmit id bus a = (dispatchTrace id bus a, Return tt).
Proof.
  intros Hbus. unfold busEmit, dispatchTrace. rewrite callListeners_quiet; [done|].
  unfold EventEmitter.listeners.
  destruct (bus !! arg_path a) as [ls|] eqn:Hls; simpl; [|constructor].
  by eapply Hbus.
Qed.

(** The climb from a path of segments: one bubble dispatch per strict
    ancestor, the nearest first, each on the array with its index 0
    rewritten. *)
Lemma bubbleEvent_climb (bus : gmap string (list listener)) segs a :
  Forall (fun s => JsString.segment s = true) segs ->
  map_Forall (fun _ ls => Forall (fun l => Forall validFilter (l_filters l)) ls)
             bus ->
  bubbleEvent (JsString.pathOf segs) bus a
  = (argsAfterClimb segs a,
     (flat_map (fun p => dispatchTrace BubbleBus bus (setArg0 p a))
               (ancestorsOf segs),
      Return tt)).
Proof.
  intros Hsegs Hbus. revert a.
  induction segs as [|s init IH] using rev_ind; intros a.
  - by rewrite bubbleEvent_unfold.
  - apply Forall_app in Hsegs as [Hinit Hs]. apply Forall_cons in Hs as [Hs _].
    specialize (IH Hinit).
    rewrite bubbleEvent_unfold.
    rewrite lastIndexOf_pathOf by by apply segment_slashFree.
    cbv zeta. rewrite substring_pathOf, ancestorsOf_snoc.
    assert (Hafter : argsAfterClimb (init ++ [s]) a = setArg0 "/" a)
      by by destruct init.
    rewrite Hafter.
    destruct init as [|x init].
    + simpl. rewrite busEmit_quiet by done. by rewrite app_nil_r.
    + change (String.eqb (JsString.pathOf (x :: init)) EmptyString)
        with false. cbv iota.
      rewrite busEmit_quiet by done. rewrite IH. simpl.
      done.
Qed.

Lemma describe_path b path event extra :
  src_path (describe b path event extra) = path
  /\ src_triggered (describe b path event extra) = false.
Proof.
  unfold describe. destruct (store b) as [view|]; [|done].
  destruct (isDelete event); [destruct extra as [|? [|? [|? ?]]]|];
    try destruct (view path) as [[? ?]|]; done.
Qed.

(** [emit] is the direct dispatch followed by the climb. *)
Lemma emit_unfold cleanPath b path event extra :
  emit cleanPath b path event extra
  = let a := emitArgsOf cleanPath b path event extra in
    match busEmit DirectBus (eventBus b) a with
    | (t, Throw e) => (t, Throw e)
    | (t, Return _) =>
        let '(_, (t', r)) := bubbleEvent (cleanPath path) (bubbleBus b) a in
        (t ++ t', r)
    end.
Proof.
  unfold emit, emitArgsOf.
  destruct (describe_path b (cleanPath path) event extra) as [Hp Ht].
  destruct (describe b (cleanPath path) event extra) as [sp st so sy].
  simpl in *. subst. by destruct event.
Qed.

Lemma emit_quiet cleanPath b path event extra segs :
  cleanPath path = JsString.pathOf segs ->
  Forall (fun s => JsString.segment s = true) segs ->
  wellFiltered b ->
  emit cleanPath b path event extra
  = (let a := emitArgsOf cleanPath b path event extra in
     dispatchTrace DirectBus (eventBus b) a
     ++ flat_map (fun p => dispatchTrace BubbleBus (bubbleBus b) (setArg0 p a))
                 (ancestorsOf segs),
     Return tt).
Proof.
  intros Hpath Hsegs [Hd Hb]. rewrite emit_unfold. cbv zeta.
  rewrite busEmit_quiet by done. rewrite Hpath.
  rewrite bubbleEvent_climb by done. done.
Qed.

Lemma dispatches_app t t' : dispatches (t ++ t') = dispatches t ++ dispatches t'.
Proof. apply omap_app. Qed.

Lemma dispatches_invocations ls a : dispatches (invocations ls a) = [].
Proof.
  induction ls as [|l ls IH]; [done|]. unfold invocations in *.
  cbn [flat_map]. rewrite dispatches_app, IH, app_nil_r.
  unfold filteredCallback. destruct (matchFilter _ _ _) as [m|]; [|done].
  by destruct (m && _).
Qed.

Lemma dispatches_dispatchTrace id bus a :
  dispatches (dispatchTrace id bus a) = [(id, Some (AVal (JStr (arg_path a))))].
Proof.
  unfold dispatchTrace. change (dispatches (?x :: ?t)) with
    (match x with BusEmit i args => [(i, head args)] | _ => [] end
     ++ dispatches t).
  by rewrite dispatches_invocations.
Qed.

Lemma dispatches_climb bus a ps :
  dispatches (flat_map (fun p => dispatchTrace BubbleBus bus (setArg0 p a)) ps)
  = map (fun p => (BubbleBus, Some (AVal (JStr p)))) ps.
Proof.
  induction ps as [|p ps IH]; [done|]. cbn [flat_map map].
  by rewrite dispatches_app, IH, dispatches_dispatchTrace.
Qed.

Lemma calls_BusEmit cb id args t : calls cb (BusEmit id args :: t) = calls cb t.
Proof. reflexivity. Qed.

Lemma calls_Invoke cb l args t :
  l_callback l = cb -> calls cb (Invoke l args :: t) = args :: calls cb t.
Proof.
  intros Hl. unfold calls. simpl. by rewrite decide_True by done.
Qed.

Lemma bubbleArgs_app t t' : bubbleArgs (t ++ t') = bubbleArgs t ++ bubbleArgs t'.
Proof. apply omap_app. Qed.

Lemma bubbleArgs_invocations ls a : bubbleArgs (invocations ls a) = [].
Proof.
  induction ls as [|l ls IH]; [done|]. unfold invocations in *.
  cbn [flat_map]. rewrite bubbleArgs_app, IH, app_nil_r.
  unfold filteredCallback. destruct (matchFilter _ _ _) as [m|]; [|done].
  by destruct (m && _).
Qed.

Lemma bubbleArgs_climb bus a ps :
  bubbleArgs (flat_map (fun p => dispatchTrace BubbleBus bus (setArg0 p a)) ps)
  = map (fun p => argsArray (setArg0 p a)) ps.
Proof.
  induction ps as [|p ps IH]; [done|]. cbn [flat_map map].
  rewrite bubbleArgs_app, IH. unfold dispatchTrace.
  change (bubbleArgs (BusEmit BubbleBus ?x :: ?t)) with (x :: bubbleArgs t).
  by rewrite bubbleArgs_invocations.
Qed.

Lemma bubbleArgs_direct bus a : bubbleArgs (dispatchTrace DirectBus bus a) = [].
Proof.
  unfold dispatchTrace.
  change (bubbleArgs (BusEmit DirectBus ?x :: ?t)) with (bubbleArgs t).
  apply bubbleArgs_invocations.
Qed.

(** Whatever the path and the listeners, every action of a dispatch stems
    from the argument array it was given. *)
Lemma stemsFrom_setArg0 p a act : stemsFrom (setArg0 p a) act -> stemsFrom a act.
Proof. by destruct act. Qed.

Lemma filteredCallback_stems l a : Forall (stemsFrom a) (filteredCallback l a).1.
Proof.
  unfold filteredCallback.
  destruct (matchFilter _ _ _) as [m|] eqn:Hm; [|constructor].
  destruct m; simpl; [|constructor].
  destruct (l_triggered l || _); repeat constructor. done.
Qed.

Lemma callListeners_stems ls a : Forall (stemsFrom a) (callListeners ls a).1.
Proof.
  induction ls as [|l ls IH]; [constructor|]. simpl.
  pose proof (filteredCallback_stems l a) as Hl.
  destruct (filteredCallback l a) as [t [[]|e]]; [|done].
  destruct (callListeners ls a) as [t' r]. simpl in *.
  by apply Forall_app.
Qed.

Lemma busEmit_stems id (bus : gmap string (list listener)) a :
  Forall (stemsFrom a) (busEmit id bus a).1.
Proof.
  unfold busEmit.
  pose proof (callListeners_stems (EventEmitter.listeners bus (arg_path a)) a)
    as Hls.
  destruct (callListeners _ a) as [t r]. constructor; [|done].
  exists (arg_path a). by rewrite setArg0_same.
Qed.

Lemma substring_lastIndexOf_shorter path i :
  JsString.lastIndexOf path = Some i ->
  String.length (substring 0 i path) < String.length path.
Proof.
  revert i. induction path as [|c r IH]; intros i Hi; simpl in Hi;
    [discriminate|].
  destruct (JsString.lastIndexOf r) as [j|] eqn:Hr.
  - injection Hi as <-. specialize (IH j eq_refl). simpl. lia.
  - destruct (JsString.is_slash c); [|discriminate].
    injection Hi as <-. simpl. lia.
Qed.

Lemma bubbleEvent_stems path (bus : gmap string (list listener)) a :
  Forall (stemsFrom a) (bubbleEvent path bus a).2.1.
Proof.
  remember (String.length path) as n eqn:Hn. revert path Hn a.
  induction n as [n IH] using lt_wf_ind. intros path -> a.
  rewrite bubbleEvent_unfold.
  destruct (JsString.lastIndexOf path) as [i|] eqn:Hi; [|constructor].
  cbv zeta. destruct (String.eqb _ _).
  - eapply Forall_impl; [apply busEmit_stems|]. apply stemsFrom_setArg0.
  - pose proof (busEmit_stems BubbleBus bus (setArg0 (substring 0 i path) a))
      as Hb.
    destruct (busEmit _ _ _) as [t [[]|e]]; simpl in *.
    + pose proof (IH _ (substring_lastIndexOf_shorter _ _ Hi) _ eq_refl
                    (setArg0 (substring 0 i path) a)) as Hrec.
      destruct (bubbleEvent _ _ _) as [a' [t' r]]. simpl in *.
      apply Forall_app. split;
        (eapply Forall_impl; [eassumption|apply stemsFrom_setArg0]).
    + eapply Forall_impl; [eassumption|apply stemsFrom_setArg0].
Qed.

Lemma emit_stems cleanPath b path event extra :
  Forall (stemsFrom (emitArgsOf cleanPath b path event extra))
         (emit cleanPath b path event extra).1.
Proof.
  rewrite emit_unfold. cbv zeta.
  pose proof (busEmit_stems DirectBus (eventBus b)
                (emitArgsOf cleanPath b path event extra)) as Hd.
  destruct (busEmit _ _ _) as [t [[]|e]]; [|done].
  pose proof (bubbleEvent_stems (cleanPath path) (bubbleBus b)
                (emitArgsOf cleanPath b path event extra)) as Hb.
  destruct (bubbleEvent _ _ _) as [a' [t' r]]. simpl in *.
  by apply Forall_app.
Qed.

End Dispatch.

Arguments calls : simpl never.

(** * Emission: order of the dispatches, and who receives them *)

Section Emission.

Import Bubbler JsString.

Ltac bus_lookup :=
  repeat first
    [ rewrite lookup_insert_eq
    | rewrite lookup_insert_ne by done
    | rewrite lookup_empty
    | progress unfold EventEmitter.listeners, EventEmitter.on
    | progress simpl ].

Ltac bus_wellFiltered :=
  unfold wellFiltered, subscribe, EventEmitter.on; simpl;
  split;
  repeat first
    [ apply map_Forall_insert_2 | apply map_Forall_empty | constructor ];
  done.

(** C3.  When no listener holds an invalid filter, [emit(path, event)]
    returns, and its bus calls are, in order: the direct bus at the clean
    path, then the bubble bus at each strict ancestor, one segment up at a
    time, the root ["/"] coming last and only once.  So a callback subscribed
    at [/a] is called once for an event emitted at [/a/b/c] when it bubbles,
    and not at all when subscribed with [bubble = false]. *)
Theorem emit_direct_then_each_ancestor (cleanPath : string -> string) :
  (forall (b : Bubbler.t) (path : string) (event : eventArg)
          (extra : list jsval) (segs : list string),
      cleanPath path = pathOf segs ->
      Forall (fun s => segment s = true) segs ->
      wellFiltered b ->
      (emit cleanPath b path event extra).2 = Return tt
      /\ dispatches (emit cleanPath b path event extra).1
         = (DirectBus, Some (AVal (JStr (pathOf segs))))
           :: map (fun p => (BubbleBus, Some (AVal (JStr p))))
                  (ancestorsOf segs)
      /\ (segs <> [] ->
          exists ups, ancestorsOf segs = ups ++ ["/"] /\ "/" ∉ ups))
  /\ (cleanPath "/a" = "/a" ->
      cleanPath "/a/b/c" = "/a/b/c" ->
      forall (cb : callback) (event : eventArg) (extra : list jsval)
             (bubble : bool),
        let b := subscribe cleanPath (new None) "/a" cb
                   (Some (Options (Some bubble) FiltersAbsent None)) in
        length (calls cb (emit cleanPath b "/a/b/c" event extra).1)
        = if bubble then 1 else 0).
Proof.
  split.
  - intros b path event extra segs Hpath Hsegs Hb.
    rewrite (emit_quiet cleanPath b path event extra segs) by done.
    cbv zeta. cbn [fst snd]. split; [done|]. split.
    + rewrite dispatches_app, dispatches_dispatchTrace, dispatches_climb.
      unfold emitArgsOf. simpl. by rewrite Hpath.
    + intros Hne. destruct segs as [|s rest]; [done|].
      apply ancestorsOf_root_last.
      apply Forall_cons in Hsegs as [Hs _]. by destruct s.
  - intros Ha Habc cb event extra bubble b.
    rewrite (emit_quiet cleanPath b "/a/b/c" event extra ["a"; "b"; "c"]);
      [|done|by repeat constructor|].
    2: { subst b. unfold subscribe. simpl. rewrite Ha.
         destruct bubble; bus_wellFiltered. }
    cbv zeta. change (ancestorsOf ["a"; "b"; "c"]) with ["/a/b"; "/a"; "/"].
    unfold emitArgsOf. rewrite Habc.
    subst b. unfold subscribe. simpl. rewrite Ha.
    destruct bubble; bus_lookup.
    + rewrite !calls_BusEmit, calls_Invoke by done. done.
    + done.
Qed.

(** An emission at [/a/b/c/] on a bubbler with one subscriber at [/a]. *)
Lemma emit_direct_then_each_ancestor_witness :
  let b := subscribe cleanPath (new None) "/a" (Callback 0 "function(){}")
             None in
  dispatches (emit cleanPath b "/a/b/c/" (EventName (JStr "update")) []).1
  = [ (DirectBus, Some (AVal (JStr "/a/b/c")));
      (BubbleBus, Some (AVal (JStr "/a/b")));
      (BubbleBus, Some (AVal (JStr "/a")));
      (BubbleBus, Some (AVal (JStr "/"))) ]
  /\ length (calls (Callback 0 "function(){}")
               (emit cleanPath
                  (subscribe cleanPath (new None) "/a"
                     (Callback 0 "function(){}")
                     (Some (Options (Some false) FiltersAbsent None)))
                  "/a/b/c" (EventName (JStr "update")) []).1) = 0.
Proof.
  split.
  - refine (proj1 (proj2 (proj1 (emit_direct_then_each_ancestor cleanPath)
              _ "/a/b/c/" (EventName (JStr "update")) [] ["a"; "b"; "c"]
              _ _ _))).
    + reflexivity.
    + repeat constructor.
    + bus_wellFiltered.
  - exact (proj2 (emit_direct_then_each_ancestor cleanPath) eq_refl eq_refl
             (Callback 0 "function(){}") (EventName (JStr "update")) []
             false).
Defined.

(** C10, as amended.  When no listener holds an invalid filter, each bubble
    dispatch is made on the shared argument array with its index 0 rewritten
    to the ancestor's own path, which the bus takes as the event type; the
    array handed back after the climb holds the root there.  A callback is
    called with the rest of the array: the event name first, then the source
    descriptor, whose path is the path of the emission throughout, then the
    extra arguments. *)
Theorem bubble_dispatch_rewrites_index_0
    (cleanPath : string -> string) (b : Bubbler.t) (path : string)
    (event : eventArg) (extra : list jsval) (segs : list string) :
  cleanPath path = pathOf segs ->
  Forall (fun s => segment s = true) segs ->
  wellFiltered b ->
  exists src : source,
    src_path src = cleanPath path
    /\ bubbleArgs (emit cleanPath b path event extra).1
       = map (fun p => AVal (JStr p) :: AVal (eventNameOf event)
                         :: ASource src :: map AVal extra)
             (ancestorsOf segs)
    /\ (segs <> [] ->
        argsArray (bubbleEvent (cleanPath path) (bubbleBus b)
                     (emitArgsOf cleanPath b path event extra)).1
        = AVal (JStr "/") :: AVal (eventNameOf event)
            :: ASource src :: map AVal extra)
    /\ (forall (l : listener) (args : list arg),
          Invoke l args ∈ (emit cleanPath b path event extra).1 ->
          args = AVal (eventNameOf event) :: ASource src :: map AVal extra).
Proof.
  intros Hpath Hsegs Hb.
  exists (arg_source (emitArgsOf cleanPath b path event extra)).
  split; [|split; [|split]].
  - simpl. apply describe_path.
  - rewrite (emit_quiet cleanPath b path event extra segs) by done.
    cbv zeta. cbn [fst].
    by rewrite bubbleArgs_app, bubbleArgs_direct, bubbleArgs_climb.
  - intros Hne. rewrite Hpath, bubbleEvent_climb by apply Hsegs || apply Hb.
    cbn [fst]. by destruct segs.
  - intros l args Hin.
    pose proof (emit_stems cleanPath b path event extra) as Hall.
    rewrite Forall_forall in Hall. apply Hall in Hin as [-> _]. done.
Qed.

Lemma bubble_dispatch_rewrites_index_0_witness :
  exists src : source,
    src_path src = "/a/b"
    /\ bubbleArgs
         (emit cleanPath
            (subscribe cleanPath (new None) "/a" (Callback 0 "function(){}")
               None)
            "/a/b/" (EventName (JStr "update")) [JStr "x"]).1
       = [ [AVal (JStr "/a"); AVal (JStr "update"); ASource src;
            AVal (JStr "x")];
           [AVal (JStr "/"); AVal (JStr "update"); ASource src;
            AVal (JStr "x")] ].
Proof.
  destruct (bubble_dispatch_rewrites_index_0 cleanPath
              (subscribe cleanPath (new None) "/a" (Callback 0 "function(){}")
                 None)
              "/a/b/" (EventName (JStr "update")) [JStr "x"] ["a"; "b"])
    as (src & Hsrc & Hargs & _).
  - reflexivity.
  - repeat constructor.
  - bus_wellFiltered.
  - exists src. split; [exact Hsrc|exact Hargs].
Defined.

(** C10, as stated, fails.  With one subscriber at [/a] and an emission of
    ["update"] at [/a/b], the callback is called once, and the first
    argument it receives is the event name, not the path [/a]. *)
Lemma listener_first_argument_is_event_name :
  let cb := Callback 0 "function(){}" in
  let b := subscribe cleanPath (new None) "/a" cb None in
  calls cb (emit cleanPath b "/a/b" (EventName (JStr "update")) []).1
  = [ [AVal (JStr "update");
       ASource (Source "/a/b" false None None)] ]
  /\ head [AVal (JStr "update"); ASource (Source "/a/b" false None None)]
     <> Some (AVal (JStr "/a")).
Proof. split; [by vm_compute|discriminate]. Qed.

End Emission.

(** * The facade never gives its bubbler a store *)

Section Facade.

Import Bubbler.

Variable cleanPath : string -> string.
Variable nullGuard : bool.

Lemma reachable_no_store (g : Giza.t) :
  Giza.reachable cleanPath nullGuard g -> store (Giza.gBubbler g) = None.
Proof.
  intros Hreach.
  induction Hreach
    as [w|g path key v _ IH|g path opts _ IH|g path cb opts _ IH].
  - reflexivity.
  - unfold Giza.save. by destruct (Store.save _ _ _ _ _ _).
  - unfold Giza.get. destruct (Store.get _ _ _ _ _ _) as [w [obj|e]]; [|done].
    simpl. by destruct (Giza.get_callback opts).
  - exact IH.
Qed.

Lemma no_store_source (b : Bubbler.t) path event extra :
  store b = None ->
  src_obj (arg_source (emitArgsOf cleanPath b path event extra)) = None
  /\ src_type (arg_source (emitArgsOf cleanPath b path event extra)) = None.
Proof. intros Hs. unfold emitArgsOf, describe. by rewrite Hs. Qed.

Lemma typesPass_undefined_not_named (c : constraint) :
  typesPass c JUndefined -> ~ namesTypes c.
Proof.
  destruct c as [|items|s|]; simpl.
  - tauto.
  - intros [->|Hin] [Hne Hall]; [done|].
    rewrite Forall_forall in Hall. by destruct (Hall _ Hin).
  - discriminate.
  - tauto.
Qed.

End Facade.

(** C7.  On an instance that calls on the facade lead to, every emission
    builds a source descriptor without [obj] and without [type], and calls no
    callback whose subscription has a filter that names types. *)
Theorem giza_emits_without_type
    (cleanPath : string -> string) (nullGuard : bool) (g : Giza.t)
    (path : string) (event : Bubbler.eventArg) (extra : list jsval) :
  Giza.reachable cleanPath nullGuard g ->
  let t := (Giza.emit cleanPath g path event extra).1 in
  (forall id args src,
      Bubbler.BusEmit id args ∈ t ->
      Bubbler.ASource src ∈ args ->
      Bubbler.src_obj src = None /\ Bubbler.src_type src = None)
  /\ (forall l args,
        Bubbler.Invoke l args ∈ t ->
        Forall (fun f => ~ namesTypes (Bubbler.types f)) (Bubbler.l_filters l)).
Proof.
  intros Hreach t.
  pose proof (reachable_no_store cleanPath nullGuard g Hreach) as Hstore.
  pose proof (emit_stems cleanPath (Giza.gBubbler g) path event extra) as Hall.
  rewrite Forall_forall in Hall.
  destruct (no_store_source cleanPath (Giza.gBubbler g) path event extra Hstore)
    as [Hobj Htype].
  split.
  - intros id args src Hin Hsrc. apply Hall in Hin as [p ->].
    unfold Bubbler.argsArray in Hsrc. simpl in Hsrc.
    repeat (apply elem_of_cons in Hsrc as [Hsrc|Hsrc]; [try discriminate|]).
    + injection Hsrc as ->. done.
    + apply list_elem_of_fmap in Hsrc as (? & ? & _). discriminate.
  - intros l args Hin. apply Hall in Hin as [_ Hm]. rewrite Htype in Hm.
    change (default JUndefined None) with JUndefined in Hm.
    destruct (matchFilter_cases (Bubbler.arg_event
                (emitArgsOf cleanPath (Giza.gBubbler g) path event extra))
                JUndefined (Bubbler.l_filters l))
      as [[Hpass _]|(pre & f & post & _ & _ & [[_ Hf]|(e & _ & Hf)])];
      [|congruence..].
    eapply Forall_impl; [exact Hpass|].
    intros f [Hf _]. by apply typesPass_undefined_not_named.
Qed.

(** A subscriber at [/a] whose filter asks for the type ["user"], and an
    emission at [/a]. *)
Lemma giza_emits_without_type_witness :
  let cb := Bubbler.Callback 0 "function(){}" in
  let user := Bubbler.Filter (Bubbler.CArray [JStr "user"]) Bubbler.CUndefined in
  let g := Giza.subscribe cleanPath (Giza.new (Store.World ∅ [])) "/a" cb
             (Some (Bubbler.Options None (Bubbler.FiltersOne user) None)) in
  Giza.reachable cleanPath true g
  /\ forall l args,
       Bubbler.Invoke l args
         ∈ (Giza.emit cleanPath g "/a" (Bubbler.EventName (JStr "update")) []).1 ->
       Forall (fun f => ~ namesTypes (Bubbler.types f)) (Bubbler.l_filters l).
Proof.
  intros cb user g.
  assert (Hreach : Giza.reachable cleanPath true g)
    by (apply Giza.reach_subscribe, Giza.reach_new).
  split; [exact Hreach|].
  exact (proj2 (giza_emits_without_type cleanPath true g "/a"
                  (Bubbler.EventName (JStr "update")) [] Hreach)).
Defined.

(** * Properties of the store *)

Section StoreFacts.

Import Store.

Variable nullGuard : bool.

Lemma walk_present create layer layers p l t c w x :
  object w l !! String JsString.slash layer = Some x ->
  walk nullGuard create (layer :: layers) p (VRef l) t c w
  = walk nullGuard create layers (VRef l) x
         (Some (String JsString.slash layer)) c w.
Proof.
  intros Hx. cbn [walk]. unfold bind at 1. cbn [has]. rewrite Hx.
  rewrite bool_decide_eq_true_2 by eauto.
  unfold bind at 1. cbn [getProp]. by rewrite Hx.
Qed.

Lemma walk_absent_nocreate layer layers p l t c w :
  object w l !! String JsString.slash layer = None ->
  walk nullGuard false (layer :: layers) p (VRef l) t c w = (w, Return None).
Proof.
  intros Hx. cbn [walk]. unfold bind at 1. cbn [has]. rewrite Hx.
  rewrite bool_decide_eq_false_2 by (by intros [? ?]). done.
Qed.

Lemma object_withChild w l key l0 :
  object (withChild w l key) l0
  = if decide (l0 = l)
    then <[key := VRef (fresh (dom (heap w)))]> (object w l)
    else object w l0.
Proof.
  assert (Hnone : heap w !! fresh (dom (heap w)) = None)
    by (apply not_elem_of_dom, is_fresh).
  unfold withChild, object. cbn [heap]. destruct (decide (l0 = l)) as [->|Hne].
  - rewrite lookup_insert_eq. cbn. f_equal.
    destruct (decide (fresh (dom (heap w)) = l)) as [<-|Hn].
    + rewrite lookup_insert_eq. cbn. by rewrite Hnone.
    + by rewrite lookup_insert_ne.
  - rewrite lookup_insert_ne by done.
    destruct (decide (fresh (dom (heap w)) = l0)) as [<-|Hn].
    + rewrite lookup_insert_eq. cbn. by rewrite Hnone.
    + by rewrite lookup_insert_ne.
Qed.

Lemma object_withChild_same w l key :
  object (withChild w l key) l
  = <[key := VRef (fresh (dom (heap w)))]> (object w l).
Proof. rewrite object_withChild. by rewrite decide_True. Qed.

Lemma withChild_keepsChildren w l key :
  object w l !! key = None -> keepsChildren w (withChild w l key).
Proof.
  intros Hnone l0 k x _ Hx. rewrite object_withChild.
  destruct (decide (l0 = l)) as [->|Hne]; [|done].
  rewrite lookup_insert_ne; [done|]. intros <-. congruence.
Qed.

Lemma withChild_nodeInvariant w l key :
  nodeInvariant w -> nodeInvariant (withChild w l key).
Proof.
  intros Hinv l0 k x Hk Hx. rewrite object_withChild in Hx.
  destruct (decide (l0 = l)) as [->|Hne]; [|by eapply Hinv].
  destruct (decide (key = k)) as [->|Hkey].
  - rewrite lookup_insert_eq in Hx. injection Hx as <-. eauto.
  - rewrite lookup_insert_ne in Hx by done. by eapply Hinv.
Qed.

Lemma keepsChildren_refl w : keepsChildren w w.
Proof. by intros l k x _ Hx. Qed.

Lemma keepsChildren_trans w1 w2 w3 :
  keepsChildren w1 w2 -> keepsChildren w2 w3 -> keepsChildren w1 w3.
Proof. intros H12 H23 l k x Hk Hx. by apply H23, H12. Qed.

Lemma childKey_layer layer : childKey (String JsString.slash layer) = true.
Proof. reflexivity. Qed.

Lemma walk_absent_create layer layers p l t c w :
  object w l !! String JsString.slash layer = None ->
  walk nullGuard true (layer :: layers) p (VRef l) t c w
  = walk nullGuard true layers (VRef l) (VRef (fresh (dom (heap w))))
         (Some (String JsString.slash layer)) true
         (withChild w l (String JsString.slash layer)).
Proof.
  intros Hx. cbn [walk]. unfold bind at 1. cbn [has]. rewrite Hx.
  rewrite bool_decide_eq_false_2 by (by intros [? ?]).
  unfold bind at 1. cbn [has]. rewrite Hx.
  rewrite bool_decide_eq_false_2 by (by intros [? ?]).
  unfold bind at 1. unfold bind at 1. unfold bind at 1. cbn [newMap].
  unfold bind at 1. cbn [setProp ret].
  match goal with
  | |- context [getProp _ _ ?W] =>
      change W with (withChild w l (String JsString.slash layer))
  end.
  cbn [getProp]. rewrite object_withChild_same, lookup_insert_eq. done.
Qed.

(** Resolving with creation ends on an object, and from then on the same
    path resolves to that object without creation, as long as the child
    entries stay. *)
Lemma walk_create_resolves layers p l t c w :
  nodeInvariant w ->
  exists w' nodes l_end,
    walk nullGuard true layers p (VRef l) t c w = (w', Return (Some nodes))
    /\ current nodes = VRef l_end
    /\ nodeInvariant w'
    /\ keepsChildren w w'
    /\ forall w'' p' t' c',
         keepsChildren w' w'' ->
         exists nodes',
           walk nullGuard false layers p' (VRef l) t' c' w''
           = (w'', Return (Some nodes'))
           /\ current nodes' = VRef l_end.
Proof.
  revert p l t c w. induction layers as [|layer layers IH];
    intros p l t c w Hinv.
  - exists w, (Nodes p (VRef l) t c), l. repeat split; try done.
    + apply keepsChildren_refl.
    + intros w'' p' t' c' _. by eexists.
  - destruct (object w l !! String JsString.slash layer) as [x|] eqn:Hx.
    + destruct (Hinv l _ x (childKey_layer layer) Hx) as [l' ->].
      destruct (IH (VRef l) l' (Some (String JsString.slash layer)) c w Hinv)
        as (w' & nodes & l_end & Hwalk & Hcur & Hinv' & Hkeep & Hagain).
      exists w', nodes, l_end. rewrite (walk_present _ _ _ _ _ _ _ _ _ Hx).
      repeat split; try done.
      intros w'' p' t' c' Hkeep'.
      rewrite (walk_present _ _ _ _ _ _ _ _ (VRef l')).
      * by apply Hagain.
      * apply Hkeep'; [apply childKey_layer|].
        by apply Hkeep; [apply childKey_layer|].
    + pose proof (withChild_nodeInvariant w l (String JsString.slash layer) Hinv)
        as Hinv1.
      pose proof (withChild_keepsChildren w l _ Hx) as Hkeep1.
      destruct (IH (VRef l) (fresh (dom (heap w)))
                  (Some (String JsString.slash layer)) true _ Hinv1)
        as (w' & nodes & l_end & Hwalk & Hcur & Hinv' & Hkeep & Hagain).
      exists w', nodes, l_end. rewrite (walk_absent_create _ _ _ _ _ _ _ Hx).
      repeat split; try done.
      * by eapply keepsChildren_trans.
      * intros w'' p' t' c' Hkeep'.
        rewrite (walk_present _ _ _ _ _ _ _ _
                   (VRef (fresh (dom (heap w))))).
        -- by apply Hagain.
        -- apply Hkeep'; [apply childKey_layer|].
           apply Hkeep; [apply childKey_layer|].
           by rewrite object_withChild_same, lookup_insert_eq.
Qed.

(** Resolving without creation leaves the world as it is. *)
Lemma walk_nocreate_world layers p cur t c w :
  (walk nullGuard false layers p cur t c w).1 = w.
Proof.
  revert p cur t c. induction layers as [|layer layers IH]; intros p cur t c;
    [done|].
  cbn [walk]. unfold bind at 1.
  destruct cur as [| |b|n|l]; cbn [has]; try done.
  - destruct nullGuard; done.
  - destruct nullGuard; done.
  - destruct (bool_decide _); [|done].
    unfold bind at 1. cbn [getProp]. apply IH.
Qed.

Lemma parsePath_nocreate_world path data w :
  (parsePath nullGuard path data false w).1 = w.
Proof. apply walk_nocreate_world. Qed.

Lemma parsePath_nocreate_result path data w r :
  (parsePath nullGuard path data false w).2 = r ->
  parsePath nullGuard path data false w = (w, r).
Proof.
  intros <-. pose proof (parsePath_nocreate_world path data w) as Hw.
  destruct (parsePath nullGuard path data false w) as [w' r]. simpl in *.
  by subst w'.
Qed.

(** What [save] does once its path has resolved to an object. *)
Lemma save_resolved this path key v w w1 nodes l :
  parsePath nullGuard (JsString.stripTrailingSlashes path) (data this) true w
  = (w1, Return (Some nodes)) ->
  current nodes = VRef l ->
  save nullGuard this path key v w
  = (World (<[l := <[key := v]> (object w1 l)]> (heap w1))
           (log w1
            ++ (if created nodes
                then [Emit (JsString.stripTrailingSlashes path) "pre-create"]
                else [])
            ++ [Emit (JsString.stripTrailingSlashes path) "pre-update";
                SetProp l key v]
            ++ (if created nodes
                then [Emit (JsString.stripTrailingSlashes path) "post-create"]
                else [])
            ++ [Emit (JsString.stripTrailingSlashes path) "post-update"]),
     Return tt).
Proof.
  intros Hparse Hcur. unfold save. unfold bind at 1. rewrite Hparse.
  cbn [currentOf createdOf from_option]. rewrite Hcur.
  destruct (created nodes); unfold bind, ret, emit, has, setProp;
    cbn [heap log]; repeat case_bool_decide; cbn [negb heap log];
    rewrite <- ?app_assoc; reflexivity.
Qed.

(** What [get] with a key does once its path has resolved to an object. *)
Lemma get_resolved this path key recursive w nodes l :
  parsePath nullGuard (JsString.stripTrailingSlashes path) (data this) false w
  = (w, Return (Some nodes)) ->
  current nodes = VRef l ->
  get nullGuard this path (Some (Key key)) recursive w
  = (w, Return (Value (default VUndefined (object w l !! key)))).
Proof.
  intros Hparse Hcur. unfold get. unfold bind at 1. rewrite Hparse.
  cbn [currentOf from_option]. rewrite Hcur.
  unfold bind at 1. cbn [has].
  destruct (object w l !! key) as [x|] eqn:Hx.
  - rewrite bool_decide_eq_true_2 by eauto. cbn [negb].
    unfold bind at 1. cbn [getProp]. by rewrite Hx.
  - rewrite bool_decide_eq_false_2 by (by intros [? ?]). done.
Qed.

End StoreFacts.

(** * Store: save, get and delete *)

Section StoreClaims.

Import Store.

Lemma nodeInvariant_new (root : loc) (effects : list effect) :
  nodeInvariant (World {[root := ∅]} effects).
Proof.
  intros l k x _ Hx. unfold object in Hx. cbn [heap] in Hx.
  destruct (decide (l = root)) as [->|Hne].
  - rewrite lookup_singleton_eq in Hx. cbn in Hx. by rewrite lookup_empty in Hx.
  - rewrite lookup_singleton_ne in Hx by done. cbn in Hx.
    by rewrite lookup_empty in Hx.
Qed.

Lemma parsePath_create_resolves nullGuard path root w :
  nodeInvariant w ->
  exists w1 nodes l,
    parsePath nullGuard path (VRef root) true w = (w1, Return (Some nodes))
    /\ current nodes = VRef l
    /\ forall w'',
         keepsChildren w1 w'' ->
         exists nodes',
           parsePath nullGuard path (VRef root) false w''
           = (w'', Return (Some nodes'))
           /\ current nodes' = VRef l.
Proof.
  intros Hinv. unfold parsePath.
  destruct (walk_create_resolves nullGuard (tail (JsString.split path))
              VNull root None false w Hinv)
    as (w1 & nodes & l & Hwalk & Hcur & _ & _ & Hagain).
  exists w1, nodes, l. repeat split; try done.
  intros w'' Hkeep. by apply Hagain.
Qed.

(** C4.  On a store that keeps the Node invariant, [save] resolves its path
    to a node, returns, and adds to the effects of the resolution, in this
    order: [pre-create] if the resolution created a node, [pre-update], the
    assignment [node[key] = value], [post-create] under the same condition,
    [post-update], every event at the path without its trailing slashes.  On
    an empty store [save('/a/b', 'x', 1)] creates [/a] and [/a/b] and emits
    the four events at [/a/b]. *)
Theorem save_emits_in_order (nullGuard : bool) :
  (forall (this : Store.t) (path key : string) (v : val) (w : world)
          (root : loc),
      data this = VRef root ->
      nodeInvariant w ->
      exists w1 nodes l,
        parsePath nullGuard (JsString.stripTrailingSlashes path) (data this)
                  true w = (w1, Return (Some nodes))
        /\ current nodes = VRef l
        /\ save nullGuard this path key v w
           = (World (<[l := <[key := v]> (object w1 l)]> (heap w1))
                (log w1
                 ++ (if created nodes
                     then [Emit (JsString.stripTrailingSlashes path)
                                "pre-create"]
                     else [])
                 ++ [Emit (JsString.stripTrailingSlashes path) "pre-update";
                     SetProp l key v]
                 ++ (if created nodes
                     then [Emit (JsString.stripTrailingSlashes path)
                                "post-create"]
                     else [])
                 ++ [Emit (JsString.stripTrailingSlashes path) "post-update"]),
              Return tt))
  /\ save nullGuard (Make (VRef 1)) "/a/b" "x" (VNum 1) (World {[1%positive := ∅]} [])
     = (World {[ 1%positive := {[ "/a" := VRef 2 ]};
                 2%positive := {[ "/b" := VRef 3 ]};
                 3%positive := {[ "x" := VNum 1 ]} ]}
              [ SetProp 1 "/a" (VRef 2); SetProp 2 "/b" (VRef 3);
                Emit "/a/b" "pre-create"; Emit "/a/b" "pre-update";
                SetProp 3 "x" (VNum 1);
                Emit "/a/b" "post-create"; Emit "/a/b" "post-update" ],
        Return tt).
Proof.
  split.
  - intros this path key v w root Hroot Hinv. rewrite Hroot.
    destruct (parsePath_create_resolves nullGuard
                (JsString.stripTrailingSlashes path) root w Hinv)
      as (w1 & nodes & l & Hparse & Hcur & _).
    exists w1, nodes, l. repeat split; try done.
    apply save_resolved; [by rewrite Hroot|done].
  - destruct nullGuard; vm_compute; reflexivity.
Qed.

Lemma save_emits_in_order_witness :
  exists w1 nodes l,
    parsePath true "/a/b" (VRef 1) true (World {[1%positive := ∅]} [])
    = (w1, Return (Some nodes))
    /\ current nodes = VRef l
    /\ save true (Make (VRef 1)) "/a/b/" "x" (VNum 1) (World {[1%positive := ∅]} [])
       = (World (<[l := <[ "x" := VNum 1]> (object w1 l)]> (heap w1))
            (log w1
             ++ (if created nodes then [Emit "/a/b" "pre-create"] else [])
             ++ [Emit "/a/b" "pre-update"; SetProp l "x" (VNum 1)]
             ++ (if created nodes then [Emit "/a/b" "post-create"] else [])
             ++ [Emit "/a/b" "post-update"]),
          Return tt).
Proof.
  exact (proj1 (save_emits_in_order true) (Make (VRef 1)) "/a/b/" "x" (VNum 1)
           (World {[1%positive := ∅]} []) 1%positive eq_refl
           (nodeInvariant_new 1 [])).
Defined.

(** C5.  On a store that keeps the Node invariant, for every path, every key
    without the child prefix and every value, [save(p, k, v)] returns and
    [get(p, k)] then returns [v]. *)
Theorem save_then_get (nullGuard : bool) (this : Store.t) (path key : string)
    (v : val) (w : world) (root : loc) :
  data this = VRef root ->
  nodeInvariant w ->
  childKey key = false ->
  exists w1,
    save nullGuard this path key v w = (w1, Return tt)
    /\ get nullGuard this path (Some (Key key)) None w1
       = (w1, Return (Value v)).
Proof.
  intros Hroot Hinv Hkey.
  destruct (parsePath_create_resolves nullGuard
              (JsString.stripTrailingSlashes path) root w Hinv)
    as (w1 & nodes & l & Hparse & Hcur & Hagain).
  eexists. split.
  - apply (save_resolved nullGuard this path key v w w1 nodes l);
      [by rewrite Hroot|done].
  - match goal with |- get _ _ _ _ _ ?W = _ => set (wf := W) end.
    assert (Hobj : forall l0, object wf l0
                   = if decide (l0 = l) then <[key := v]> (object w1 l)
                     else object w1 l0).
    { intros l0. unfold object, wf. cbn [heap].
      destruct (decide (l0 = l)) as [->|Hne];
        [by rewrite lookup_insert_eq|by rewrite lookup_insert_ne]. }
    destruct (Hagain wf) as (nodes' & Hparse' & Hcur').
    { intros l0 k x Hk Hx. rewrite Hobj.
      destruct (decide (l0 = l)) as [->|Hne]; [|done].
      rewrite lookup_insert_ne; [done|]. intros <-. congruence. }
    rewrite (get_resolved nullGuard this path key None wf nodes' l);
      [|by rewrite Hroot|done].
    by rewrite Hobj, decide_True, lookup_insert_eq.
Qed.

Lemma save_then_get_witness :
  exists w1,
    save true (Make (VRef 1)) "/a/b" "x" (VNum 1) (World {[1%positive := ∅]} [])
    = (w1, Return tt)
    /\ get true (Make (VRef 1)) "/a/b" (Some (Key "x")) None w1
       = (w1, Return (Value (VNum 1))).
Proof.
  exact (save_then_get true (Make (VRef 1)) "/a/b" "x" (VNum 1)
           (World {[1%positive := ∅]} []) 1%positive eq_refl
           (nodeInvariant_new 1 []) eq_refl).
Defined.

(** C8.  When the path resolves to a node that does not hold the key,
    [delete(path, key)] returns [false] and leaves the tree and the effects
    as they were: nothing is emitted. *)
Theorem delete_absent_key_is_noop (nullGuard : bool) (this : Store.t)
    (path key : string) (w : world) (nodes : Store.nodes) (l : loc) :
  (parsePath nullGuard (JsString.stripTrailingSlashes path) (data this)
             false w).2 = Return (Some nodes) ->
  current nodes = VRef l ->
  object w l !! key = None ->
  delete nullGuard this path (Some key) w = (w, Return false).
Proof.
  intros Hparse Hcur Hkey. apply parsePath_nocreate_result in Hparse.
  unfold delete. unfold bind at 1. rewrite Hparse.
  cbn [currentOf from_option]. rewrite Hcur. unfold bind at 1. cbn [has].
  rewrite Hkey. rewrite bool_decide_eq_false_2 by (by intros [? ?]). done.
Qed.

(** The store after [save('/a/b', 'x', 1)], and [delete('/a/b',
    'missing-key')] on it. *)
Lemma delete_absent_key_is_noop_witness :
  let w := World {[ 1%positive := {[ "/a" := VRef 2 ]};
                    2%positive := {[ "/b" := VRef 3 ]};
                    3%positive := {[ "x" := VNum 1 ]} ]} [] in
  delete true (Make (VRef 1)) "/a/b" (Some "missing-key") w = (w, Return false).
Proof.
  intros w.
  apply (delete_absent_key_is_noop true (Make (VRef 1)) "/a/b" "missing-key" w
           (Nodes (VRef 2) (VRef 3) (Some "/b") false) 3%positive).
  - vm_compute. reflexivity.
  - reflexivity.
  - vm_compute. reflexivity.
Defined.

(** What [get] and [delete] do on a path that does not resolve: no failure of
    their own is raised. *)
Lemma unresolved_path_outcomes (nullGuard : bool) (this : Store.t)
    (path : string) (w : world) :
  (parsePath nullGuard (JsString.stripTrailingSlashes path) (data this)
             false w).2 = Return None ->
  delete nullGuard this path None w
  = (World (heap w)
       (log w ++ [Emit (JsString.stripTrailingSlashes path) "pre-delete"]),
     Throw TypeError)
  /\ (forall key,
        delete nullGuard this path (Some key) w
        = (w, if nullGuard then Return false else Throw TypeError))
  /\ (forall key recursive,
        get nullGuard this path (Some (Key key)) recursive w
        = (w, if nullGuard then Return (Value VUndefined)
              else Throw TypeError))
  /\ get nullGuard this path None (Some true) w = (w, Return (Value VUndefined))
  /\ get nullGuard this path None None w
     = (w, if nullGuard then Return (Picked ∅) else Throw TypeError).
Proof.
  intros Hparse. apply parsePath_nocreate_result in Hparse.
  repeat split; intros; unfold delete, get; unfold bind at 1; rewrite Hparse;
    simpl; by destruct nullGuard.
Qed.

(** C2: the code at a path that does not resolve.  On an empty store, the
    path [/a] has no node.  [delete('/a')] emits [pre-delete] and then fails
    with the runtime's TypeError on the missing parent; [delete('/a', 'k')]
    and [get('/a', 'k')] answer [false] and [undefined], as for an absent
    key, or fail with a TypeError raised inside underscore.  No failure of
    the store's own is raised. *)
Theorem get_delete_on_missing_path (nullGuard : bool) :
  let this := Make (VRef 1) in
  let w := World {[1%positive := ∅]} [] in
  parsePath nullGuard "/a" (data this) false w = (w, Return None)
  /\ delete nullGuard this "/a" None w
     = (World {[1%positive := ∅]} [Emit "/a" "pre-delete"], Throw TypeError)
  /\ delete nullGuard this "/a" (Some "k") w
     = (w, if nullGuard then Return false else Throw TypeError)
  /\ get nullGuard this "/a" (Some (Key "k")) None w
     = (w, if nullGuard then Return (Value VUndefined) else Throw TypeError)
  /\ exists_ nullGuard this "/a" (Some "k") w = (w, Return false).
Proof. destruct nullGuard; vm_compute; repeat split; reflexivity. Qed.

(** C1: the code on a new key of a node that exists.  After [save('/a', 'x',
    1)] the node [/a] exists and holds no ["y"]; [save('/a', 'y', 2)] then
    creates nothing on the way, and emits [pre-update] and [post-update]
    only: [createMode] is the [created] flag of the resolution, whatever the
    key. *)
Theorem save_new_key_on_existing_node (nullGuard : bool) :
  let this := Make (VRef 1) in
  let w := World {[ 1%positive := {[ "/a" := VRef 2 ]};
                    2%positive := {[ "x" := VNum 1 ]} ]} [] in
  (save nullGuard this "/a" "x" (VNum 1) (World {[1%positive := ∅]} [])).1
  = World (heap w)
      [ SetProp 1 "/a" (VRef 2);
        Emit "/a" "pre-create"; Emit "/a" "pre-update";
        SetProp 2 "x" (VNum 1);
        Emit "/a" "post-create"; Emit "/a" "post-update" ]
  /\ object w 2 !! "y" = None
  /\ save nullGuard this "/a" "y" (VNum 2) w
     = (World {[ 1%positive := {[ "/a" := VRef 2 ]};
                 2%positive := {[ "x" := VNum 1; "y" := VNum 2 ]} ]}
          [ Emit "/a" "pre-update"; SetProp 2 "y" (VNum 2);
            Emit "/a" "post-update" ],
        Return tt).
Proof. destruct nullGuard; vm_compute; repeat split; reflexivity. Qed.

End StoreClaims.

(** * More on path resolution *)

Section Resolution.

Import Store.

Variable nullGuard : bool.

(** A walk that finds every layer walks through objects. *)
Lemma walk_nocreate_step layer layers p cur t c w nodes :
  walk nullGuard false (layer :: layers) p cur t c w = (w, Return (Some nodes)) ->
  exists l x,
    cur = VRef l
    /\ object w l !! String JsString.slash layer = Some x
    /\ walk nullGuard false layers (VRef l) x
            (Some (String JsString.slash layer)) c w
       = (w, Return (Some nodes)).
Proof.
  intros Hwalk. destruct cur as [| |b|n|l].
  1-4: cbn [walk] in Hwalk; unfold bind in Hwalk; cbn [has] in Hwalk;
       destruct nullGuard; discriminate.
  destruct (object w l !! String JsString.slash layer) as [x|] eqn:Hx.
  - exists l, x. by rewrite (walk_present _ _ _ _ _ _ _ _ _ _ Hx) in Hwalk.
  - by rewrite (walk_absent_nocreate _ _ _ _ _ _ _ _ Hx) in Hwalk.
Qed.

(** Where nothing is missing, resolving with creation creates nothing. *)
Lemma walk_resolved_create layers p cur t c w nodes :
  walk nullGuard false layers p cur t c w = (w, Return (Some nodes)) ->
  walk nullGuard true layers p cur t c w = (w, Return (Some nodes)).
Proof.
  revert p cur t c. induction layers as [|layer layers IH];
    intros p cur t c Hwalk; [done|].
  destruct (walk_nocreate_step _ _ _ _ _ _ _ _ Hwalk) as (l & x & -> & Hx & Hrest).
  rewrite (walk_present _ _ _ _ _ _ _ _ _ _ Hx). by apply IH.
Qed.

(** Resolution reads child entries only. *)
Lemma walk_nocreate_stable layers p cur t c w w' nodes :
  walk nullGuard false layers p cur t c w = (w, Return (Some nodes)) ->
  keepsChildren w w' ->
  walk nullGuard false layers p cur t c w' = (w', Return (Some nodes)).
Proof.
  revert p cur t c. induction layers as [|layer layers IH];
    intros p cur t c Hwalk Hkeep.
  - cbn [walk] in *. unfold ret in *. by injection Hwalk as <-.
  - destruct (walk_nocreate_step _ _ _ _ _ _ _ _ Hwalk)
      as (l & x & -> & Hx & Hrest).
    rewrite (walk_present _ _ _ _ _ _ _ _ _ x).
    + by apply IH.
    + apply Hkeep; [apply childKey_layer|done].
Qed.

(** On a store that keeps the Node invariant, resolution never raises. *)
Lemma walk_nocreate_returns layers p l t c w :
  nodeInvariant w ->
  exists r, walk nullGuard false layers p (VRef l) t c w = (w, Return r).
Proof.
  intros Hinv. revert p l t c. induction layers as [|layer layers IH];
    intros p l t c; [by eexists|].
  destruct (object w l !! String JsString.slash layer) as [x|] eqn:Hx.
  - destruct (Hinv l _ x (childKey_layer layer) Hx) as [l' ->].
    rewrite (walk_present _ _ _ _ _ _ _ _ _ _ Hx). apply IH.
  - rewrite (walk_absent_nocreate _ _ _ _ _ _ _ _ Hx). by eexists.
Qed.

(** The [created] flag of a resolution with creation: set from the start, or
    set because a layer was missing. *)
Lemma walk_create_flag layers p l t c w w' nodes :
  nodeInvariant w ->
  walk nullGuard true layers p (VRef l) t c w = (w', Return (Some nodes)) ->
  (c = true -> created nodes = true)
  /\ (forall p' t' c',
        walk nullGuard false layers p' (VRef l) t' c' w = (w, Return None) ->
        created nodes = true).
Proof.
  revert p l t c w. induction layers as [|layer layers IH];
    intros p l t c w Hinv Hwalk.
  - cbn [walk] in Hwalk. unfold ret in Hwalk. injection Hwalk as <- <-.
    split; [done|]. intros. discriminate.
  - destruct (object w l !! String JsString.slash layer) as [x|] eqn:Hx.
    + destruct (Hinv l _ x (childKey_layer layer) Hx) as [l' ->].
      rewrite (walk_present _ _ _ _ _ _ _ _ _ _ Hx) in Hwalk.
      destruct (IH _ _ _ _ _ Hinv Hwalk) as [Hc Hnone]. split; [done|].
      intros p' t' c' Hno.
      rewrite (walk_present _ _ _ _ _ _ _ _ _ _ Hx) in Hno. by eapply Hnone.
    + rewrite (walk_absent_create _ _ _ _ _ _ _ _ Hx) in Hwalk.
      destruct (IH _ _ _ _ _ (withChild_nodeInvariant _ _ _ Hinv) Hwalk)
        as [Hc _].
      split; intros; by apply Hc.
Qed.

End Resolution.

(** * More on the store *)

Section StoreMore.

Import Store.

Variable nullGuard : bool.

Lemma walk_nocreate_flag layers p cur t c w nodes :
  walk nullGuard false layers p cur t c w = (w, Return (Some nodes)) ->
  created nodes = c.
Proof.
  revert p cur t. induction layers as [|layer layers IH]; intros p cur t Hwalk.
  - cbn [walk] in Hwalk. unfold ret in Hwalk. by injection Hwalk as <-.
  - destruct (walk_nocreate_step _ _ _ _ _ _ _ _ _ Hwalk)
      as (l & x & -> & Hx & Hrest). by eapply IH.
Qed.

Lemma walk_nocreate_current layers p l t c w nodes :
  nodeInvariant w ->
  walk nullGuard false layers p (VRef l) t c w = (w, Return (Some nodes)) ->
  exists l', current nodes = VRef l'.
Proof.
  intros Hinv. revert p l t. induction layers as [|layer layers IH];
    intros p l t Hwalk.
  - cbn [walk] in Hwalk. unfold ret in Hwalk. injection Hwalk as <-. by eexists.
  - destruct (walk_nocreate_step _ _ _ _ _ _ _ _ _ Hwalk)
      as (l0 & x & [= <-] & Hx & Hrest).
    destruct (Hinv l _ x (childKey_layer layer) Hx) as [l' ->]. by eapply IH.
Qed.

Lemma parsePath_resolved path this w nodes :
  (parsePath nullGuard (JsString.stripTrailingSlashes path) (data this)
             false w).2 = Return (Some nodes) ->
  parsePath nullGuard (JsString.stripTrailingSlashes path) (data this) false w
  = (w, Return (Some nodes))
  /\ parsePath nullGuard (JsString.stripTrailingSlashes path) (data this) true w
     = (w, Return (Some nodes))
  /\ created nodes = false
  /\ resolves nullGuard this path w = true.
Proof.
  intros Hparse. unfold resolves. rewrite Hparse.
  apply parsePath_nocreate_result in Hparse. repeat split; try done.
  - by apply walk_resolved_create.
  - by eapply walk_nocreate_flag.
Qed.

Lemma exists_resolved this path w nodes l :
  parsePath nullGuard (JsString.stripTrailingSlashes path) (data this) false w
  = (w, Return (Some nodes)) ->
  current nodes = VRef l ->
  exists_ nullGuard this path None w = (w, Return true)
  /\ forall key,
       exists_ nullGuard this path (Some key) w
       = (w, Return (bool_decide (is_Some (object w l !! key)))).
Proof.
  intros Hparse Hcur. unfold exists_. unfold bind. rewrite Hparse.
  cbn [currentOf from_option]. rewrite Hcur. done.
Qed.

Lemma exists_unresolved this path w :
  parsePath nullGuard (JsString.stripTrailingSlashes path) (data this) false w
  = (w, Return None) ->
  forall key, exists_ nullGuard this path key w = (w, Return false).
Proof. intros Hparse key. unfold exists_. unfold bind. by rewrite Hparse. Qed.

(** The world after [obj[key] = v] on the object at [l]. *)
Lemma object_after_set (w : world) l key v effects l0 :
  object (World (<[l := <[key := v]> (object w l)]> (heap w)) effects) l0
  = if decide (l0 = l) then <[key := v]> (object w l) else object w l0.
Proof.
  unfold object. cbn [heap]. destruct (decide (l0 = l)) as [->|Hne];
    [by rewrite lookup_insert_eq|by rewrite lookup_insert_ne].
Qed.

Lemma object_after_delete (w : world) l key effects l0 :
  object (World (<[l := base.delete key (object w l)]> (heap w)) effects) l0
  = if decide (l0 = l) then base.delete key (object w l) else object w l0.
Proof.
  unfold object. cbn [heap]. destruct (decide (l0 = l)) as [->|Hne];
    [by rewrite lookup_insert_eq|by rewrite lookup_insert_ne].
Qed.

Lemma keepsChildren_after_set (w : world) l key v effects :
  childKey key = false ->
  keepsChildren w (World (<[l := <[key := v]> (object w l)]> (heap w)) effects).
Proof.
  intros Hkey l0 k x Hk Hx. rewrite object_after_set.
  destruct (decide (l0 = l)) as [->|Hne]; [|done].
  rewrite lookup_insert_ne; [done|]. intros <-. congruence.
Qed.

Lemma keepsChildren_after_delete (w : world) l key effects :
  childKey key = false ->
  keepsChildren w (World (<[l := base.delete key (object w l)]> (heap w)) effects).
Proof.
  intros Hkey l0 k x Hk Hx. rewrite object_after_delete.
  destruct (decide (l0 = l)) as [->|Hne]; [|done].
  rewrite lookup_delete_ne; [done|]. intros <-. congruence.
Qed.

End StoreMore.

(** * Store: what a save creates, keeps and composes with *)

Section StoreExtras.

Import Store.

(** X1.  On a store that keeps the Node invariant, [save] emits [pre-create]
    and [post-create] exactly when its path did not resolve before the call;
    when it did, the resolution changes nothing and the only effects are
    [pre-update], the assignment and [post-update]. *)
Theorem save_creates_iff_unresolved (nullGuard : bool) (this : Store.t)
    (path key : string) (v : val) (w : world) (root : loc) :
  data this = VRef root ->
  nodeInvariant w ->
  exists w1 l,
    save nullGuard this path key v w
    = (World (<[l := <[key := v]> (object w1 l)]> (heap w1))
         (log w1
          ++ (if resolves nullGuard this path w then []
              else [Emit (JsString.stripTrailingSlashes path) "pre-create"])
          ++ [Emit (JsString.stripTrailingSlashes path) "pre-update";
              SetProp l key v]
          ++ (if resolves nullGuard this path w then []
              else [Emit (JsString.stripTrailingSlashes path) "post-create"])
          ++ [Emit (JsString.stripTrailingSlashes path) "post-update"]),
       Return tt)
    /\ (resolves nullGuard this path w = true -> w1 = w).
Proof.
  intros Hroot Hinv.
  destruct (walk_create_resolves nullGuard (layersOf path) VNull root None
              false w Hinv)
    as (w1 & nodes & l & Hwalk & Hcur & _).
  assert (Hparse : parsePath nullGuard (JsString.stripTrailingSlashes path)
                     (data this) true w = (w1, Return (Some nodes)))
    by by rewrite Hroot.
  exists w1, l. rewrite (save_resolved nullGuard this path key v w w1 nodes l)
    by done.
  destruct (walk_nocreate_returns nullGuard (layersOf path) VNull root None
              false w Hinv) as [r Hr].
  assert (Hno : parsePath nullGuard (JsString.stripTrailingSlashes path)
                  (data this) false w = (w, Return r))
    by by rewrite Hroot.
  unfold resolves. rewrite Hno. cbn [snd]. destruct r as [n|].
  - apply walk_resolved_create in Hr as Hr'. unfold layersOf in *.
    rewrite Hr' in Hwalk. injection Hwalk as <- <-.
    rewrite (walk_nocreate_flag _ _ _ _ _ _ _ _ Hr). done.
  - destruct (walk_create_flag _ _ _ _ _ _ _ _ _ Hinv Hwalk) as [_ Hc].
    rewrite (Hc _ _ _ Hr). split; [done|discriminate].
Qed.

Lemma save_creates_iff_unresolved_witness :
  exists w1 l,
    save true (Make (VRef 1)) "/a" "x" (VNum 1) (World {[1%positive := ∅]} [])
    = (World (<[l := <["x" := VNum 1]> (object w1 l)]> (heap w1))
         (log w1 ++ [Emit "/a" "pre-create"]
          ++ [Emit "/a" "pre-update"; SetProp l "x" (VNum 1)]
          ++ [Emit "/a" "post-create"] ++ [Emit "/a" "post-update"]),
       Return tt).
Proof.
  destruct (save_creates_iff_unresolved true (Make (VRef 1)) "/a" "x" (VNum 1)
              (World {[1%positive := ∅]} []) 1%positive eq_refl
              (nodeInvariant_new 1 [])) as (w1 & l & H & _).
  exists w1, l. exact H.
Defined.

(** X2.  After a [save], a second [save] at the same path, whatever its key
    and value, creates nothing: it emits [pre-update] and [post-update] only,
    around its assignment on the same node. *)
Theorem save_again_updates_only (nullGuard : bool) (this : Store.t)
    (path key : string) (v : val) (w : world) (root : loc) :
  data this = VRef root ->
  nodeInvariant w ->
  childKey key = false ->
  exists w1 l,
    save nullGuard this path key v w = (w1, Return tt)
    /\ forall (key' : string) (v' : val),
         save nullGuard this path key' v' w1
         = (World (<[l := <[key' := v']> (object w1 l)]> (heap w1))
              (log w1
               ++ [Emit (JsString.stripTrailingSlashes path) "pre-update";
                   SetProp l key' v';
                   Emit (JsString.stripTrailingSlashes path) "post-update"]),
            Return tt).
Proof.
  intros Hroot Hinv Hkey.
  destruct (parsePath_create_resolves nullGuard
              (JsString.stripTrailingSlashes path) root w Hinv)
    as (w0 & nodes & l & Hparse & Hcur & Hagain).
  rewrite <- Hroot in Hparse.
  eexists _, l. split; [by apply (save_resolved nullGuard this path key v w w0 nodes l)|].
  intros key' v'.
  match goal with |- save _ _ _ _ _ ?W = _ => set (wf := W) end.
  destruct (Hagain wf) as (nodes' & Hparse' & Hcur').
  { by apply keepsChildren_after_set. }
  rewrite <- Hroot in Hparse'.
  destruct (parsePath_resolved nullGuard path this wf nodes')
    as (_ & Hcreate & Hflag & _); [by rewrite Hparse'|].
  rewrite (save_resolved nullGuard this path key' v' wf wf nodes' l) by done.
  by rewrite Hflag.
Qed.

Lemma save_again_updates_only_witness :
  exists w1 l,
    save true (Make (VRef 1)) "/a/b" "x" (VNum 1) (World {[1%positive := ∅]} [])
    = (w1, Return tt)
    /\ forall (key' : string) (v' : val),
         save true (Make (VRef 1)) "/a/b" key' v' w1
         = (World (<[l := <[key' := v']> (object w1 l)]> (heap w1))
              (log w1
               ++ [Emit "/a/b" "pre-update"; SetProp l key' v';
                   Emit "/a/b" "post-update"]),
            Return tt).
Proof.
  exact (save_again_updates_only true (Make (VRef 1)) "/a/b" "x" (VNum 1)
           (World {[1%positive := ∅]} []) 1%positive eq_refl
           (nodeInvariant_new 1 []) eq_refl).
Defined.

(** X3.  [save] with a key that does not carry the child prefix keeps the
    Node invariant of the store. *)
Theorem save_keeps_nodeInvariant (nullGuard : bool) (this : Store.t)
    (path key : string) (v : val) (w : world) (root : loc) :
  data this = VRef root ->
  nodeInvariant w ->
  childKey key = false ->
  nodeInvariant (save nullGuard this path key v w).1.
Proof.
  intros Hroot Hinv Hkey.
  destruct (walk_create_resolves nullGuard (layersOf path) VNull root None
              false w Hinv)
    as (w1 & nodes & l & Hwalk & Hcur & Hinv1 & _).
  rewrite (save_resolved nullGuard this path key v w w1 nodes l);
    [|by rewrite Hroot|done].
  cbn [fst]. intros l0 k x Hk Hx. rewrite object_after_set in Hx.
  destruct (decide (l0 = l)) as [->|Hne]; [|by eapply Hinv1].
  rewrite lookup_insert_ne in Hx; [by eapply Hinv1|]. intros <-. congruence.
Qed.

Lemma save_keeps_nodeInvariant_witness :
  nodeInvariant
    (save true (Make (VRef 1)) "/a/b" "x" (VNum 1)
       (World {[1%positive := ∅]} [])).1.
Proof.
  exact (save_keeps_nodeInvariant true (Make (VRef 1)) "/a/b" "x" (VNum 1)
           (World {[1%positive := ∅]} []) 1%positive eq_refl
           (nodeInvariant_new 1 []) eq_refl).
Defined.

(** X4.  After [save(p, k, v)], [exists(p)] and [exists(p, k)] return
    [true]. *)
Theorem save_then_exists (nullGuard : bool) (this : Store.t)
    (path key : string) (v : val) (w : world) (root : loc) :
  data this = VRef root ->
  nodeInvariant w ->
  childKey key = false ->
  exists w1,
    save nullGuard this path key v w = (w1, Return tt)
    /\ exists_ nullGuard this path None w1 = (w1, Return true)
    /\ exists_ nullGuard this path (Some key) w1 = (w1, Return true).
Proof.
  intros Hroot Hinv Hkey.
  destruct (parsePath_create_resolves nullGuard
              (JsString.stripTrailingSlashes path) root w Hinv)
    as (w0 & nodes & l & Hparse & Hcur & Hagain).
  rewrite <- Hroot in Hparse.
  eexists. split; [by apply (save_resolved nullGuard this path key v w w0 nodes l)|].
  match goal with |- exists_ _ _ _ _ ?W = _ /\ _ => set (wf := W) end.
  destruct (Hagain wf) as (nodes' & Hparse' & Hcur').
  { by apply keepsChildren_after_set. }
  rewrite <- Hroot in Hparse'.
  destruct (exists_resolved nullGuard this path wf nodes' l Hparse' Hcur')
    as [Hnode Hkeys].
  split; [done|]. rewrite Hkeys. unfold wf. rewrite object_after_set.
  rewrite decide_True by done. rewrite lookup_insert_eq.
  by rewrite bool_decide_eq_true_2 by eauto.
Qed.

Lemma save_then_exists_witness :
  exists w1,
    save true (Make (VRef 1)) "/a/b" "x" (VNum 1) (World {[1%positive := ∅]} [])
    = (w1, Return tt)
    /\ exists_ true (Make (VRef 1)) "/a/b" None w1 = (w1, Return true)
    /\ exists_ true (Make (VRef 1)) "/a/b" (Some "x") w1 = (w1, Return true).
Proof.
  exact (save_then_exists true (Make (VRef 1)) "/a/b" "x" (VNum 1)
           (World {[1%positive := ∅]} []) 1%positive eq_refl
           (nodeInvariant_new 1 []) eq_refl).
Defined.

(** What [delete] with a key does on a node that holds the key. *)
Lemma delete_present (nullGuard : bool) (this : Store.t) (path key : string)
    (w : world) (nodes : Store.nodes) (l : loc) (x : val) :
  parsePath nullGuard (JsString.stripTrailingSlashes path) (data this) false w
  = (w, Return (Some nodes)) ->
  current nodes = VRef l ->
  object w l !! key = Some x ->
  delete nullGuard this path (Some key) w
  = (World (<[l := base.delete key (object w l)]> (heap w))
       (log w
        ++ [Emit (JsString.stripTrailingSlashes path) "pre-delete";
            DeleteProp l key;
            Emit (JsString.stripTrailingSlashes path) "post-delete"]),
     Return true).
Proof.
  intros Hparse Hcur Hx. unfold delete. unfold bind at 1. rewrite Hparse.
  cbn [currentOf from_option]. rewrite Hcur. unfold bind at 1. cbn [has].
  rewrite Hx, bool_decide_eq_true_2 by eauto. cbn [negb].
  unfold bind, emit, deleteProp, ret, object. cbn [heap log].
  by rewrite <- !app_assoc.
Qed.

(** X5.  After [save(p, k, v)], [delete(p, k)] returns [true], having
    emitted [pre-delete] and [post-delete] around the removal of the key;
    after that [get(p, k)] returns [undefined] and [exists(p, k)] returns
    [false], while the node itself is still there. *)
Theorem save_delete_get (nullGuard : bool) (this : Store.t)
    (path key : string) (v : val) (w : world) (root : loc) :
  data this = VRef root ->
  nodeInvariant w ->
  childKey key = false ->
  exists w1 w2 l,
    save nullGuard this path key v w = (w1, Return tt)
    /\ delete nullGuard this path (Some key) w1 = (w2, Return true)
    /\ log w2
       = log w1
         ++ [Emit (JsString.stripTrailingSlashes path) "pre-delete";
             DeleteProp l key;
             Emit (JsString.stripTrailingSlashes path) "post-delete"]
    /\ get nullGuard this path (Some (Key key)) None w2
       = (w2, Return (Value VUndefined))
    /\ exists_ nullGuard this path (Some key) w2 = (w2, Return false)
    /\ exists_ nullGuard this path None w2 = (w2, Return true).
Proof.
  intros Hroot Hinv Hkey.
  destruct (parsePath_create_resolves nullGuard
              (JsString.stripTrailingSlashes path) root w Hinv)
    as (w0 & nodes & l & Hparse & Hcur & Hagain).
  rewrite <- Hroot in Hparse.
  eexists _, _, l.
  split; [by apply (save_resolved nullGuard this path key v w w0 nodes l)|].
  match goal with |- delete _ _ _ _ ?W = _ /\ _ => set (wf := W) end.
  destruct (Hagain wf) as (nodes1 & Hparse1 & Hcur1).
  { by apply keepsChildren_after_set. }
  rewrite <- Hroot in Hparse1.
  assert (Hx : object wf l !! key = Some v).
  { unfold wf. rewrite object_after_set, decide_True by done.
    apply lookup_insert_eq. }
  split; [by apply (delete_present nullGuard this path key wf nodes1 l v)|].
  match goal with |- log ?W = _ /\ _ => set (wd := W) end.
  split; [done|].
  destruct (Hagain wd) as (nodes2 & Hparse2 & Hcur2).
  { eapply keepsChildren_trans; [by apply (keepsChildren_after_set w0 l key v)|].
    by apply (keepsChildren_after_delete wf). }
  rewrite <- Hroot in Hparse2.
  assert (Hgone : object wd l !! key = None).
  { unfold wd. rewrite object_after_delete, decide_True by done.
    apply lookup_delete_eq. }
  destruct (exists_resolved nullGuard this path wd nodes2 l Hparse2 Hcur2)
    as [Hnode Hkeys].
  rewrite (get_resolved nullGuard this path key None wd nodes2 l) by done.
  rewrite Hkeys, Hgone. repeat split; done.
Qed.

Lemma save_delete_get_witness :
  exists w1 w2 l,
    save true (Make (VRef 1)) "/a/b" "x" (VNum 1) (World {[1%positive := ∅]} [])
    = (w1, Return tt)
    /\ delete true (Make (VRef 1)) "/a/b" (Some "x") w1 = (w2, Return true)
    /\ log w2
       = log w1 ++ [Emit "/a/b" "pre-delete"; DeleteProp l "x";
                    Emit "/a/b" "post-delete"]
    /\ get true (Make (VRef 1)) "/a/b" (Some (Key "x")) None w2
       = (w2, Return (Value VUndefined))
    /\ exists_ true (Make (VRef 1)) "/a/b" (Some "x") w2 = (w2, Return false)
    /\ exists_ true (Make (VRef 1)) "/a/b" None w2 = (w2, Return true).
Proof.
  exact (save_delete_get true (Make (VRef 1)) "/a/b" "x" (VNum 1)
           (World {[1%positive := ∅]} []) 1%positive eq_refl
           (nodeInvariant_new 1 []) eq_refl).
Defined.

(** Once the last layer of a resolved path is deleted from its parent, the
    path resolves no more. *)
Lemma walk_after_delete (nullGuard : bool) layers p cur t c w nodes :
  walk nullGuard false layers p cur t c w = (w, Return (Some nodes)) ->
  layers <> [] ->
  exists lp d,
    parent nodes = VRef lp
    /\ dirName nodes = Some d
    /\ forall w' p' t' c',
         (forall l0, object w' l0
                     = if decide (l0 = lp) then base.delete d (object w lp)
                       else object w l0) ->
         walk nullGuard false layers p' cur t' c' w' = (w', Return None).
Proof.
  revert p cur t c. induction layers as [|layer layers IH];
    intros p cur t c Hwalk Hne; [done|].
  destruct (walk_nocreate_step _ _ _ _ _ _ _ _ _ Hwalk)
    as (l & x & -> & Hx & Hrest).
  destruct layers as [|layer2 layers].
  - cbn [walk] in Hrest. unfold ret in Hrest. injection Hrest as <-.
    exists l, (String JsString.slash layer). repeat split; try done.
    intros w' p' t' c' Hobj. apply walk_absent_nocreate.
    rewrite Hobj, decide_True by done. apply lookup_delete_eq.
  - destruct (IH _ _ _ _ Hrest) as (lp & d & Hp & Hd & Hgone); [done|].
    exists lp, d. repeat split; try done.
    intros w' p' t' c' Hobj.
    destruct (decide (l = lp /\ String JsString.slash layer = d))
      as [[-> <-]|Hother].
    + apply walk_absent_nocreate.
      rewrite Hobj, decide_True by done. apply lookup_delete_eq.
    + rewrite (walk_present _ _ _ _ _ _ _ _ _ x); [by apply Hgone|].
      rewrite Hobj. destruct (decide (l = lp)) as [->|Hl]; [|done].
      rewrite lookup_delete_ne; [done|]. intros Heq. by apply Hother.
Qed.

(** X6.  [delete(path)] without a key, on a path of at least one layer that
    resolves, removes the node from its parent, emits [pre-delete] and
    [post-delete] around the removal and returns [true]; after that the path
    does not resolve, and [exists] returns [false] for it. *)
Theorem delete_subtree (nullGuard : bool) (this : Store.t) (path : string)
    (w : world) (nodes : Store.nodes) :
  (parsePath nullGuard (JsString.stripTrailingSlashes path) (data this)
             false w).2 = Return (Some nodes) ->
  layersOf path <> [] ->
  exists lp d w',
    parent nodes = VRef lp
    /\ dirName nodes = Some d
    /\ w' = World (<[lp := base.delete d (object w lp)]> (heap w))
              (log w
               ++ [Emit (JsString.stripTrailingSlashes path) "pre-delete";
                   DeleteProp lp d;
                   Emit (JsString.stripTrailingSlashes path) "post-delete"])
    /\ delete nullGuard this path None w = (w', Return true)
    /\ forall key, exists_ nullGuard this path key w' = (w', Return false).
Proof.
  intros Hparse Hlayers. apply parsePath_nocreate_result in Hparse.
  destruct (walk_after_delete nullGuard _ _ _ _ _ _ _ Hparse Hlayers)
    as (lp & d & Hp & Hd & Hgone).
  eexists lp, d, _. repeat split; try done.
  - unfold delete. unfold bind at 1. rewrite Hparse.
    cbn [parentOf dirNameOf from_option mbind option_bind default].
    rewrite Hp, Hd. unfold bind, emit, deleteProp, ret, object.
    cbn [heap log default mbind option_bind]. by rewrite <- !app_assoc.
  - intros key. apply exists_unresolved. apply Hgone.
    intros l0. apply object_after_delete.
Qed.

Lemma delete_subtree_witness :
  let w := World {[ 1%positive := {[ "/a" := VRef 2 ]};
                    2%positive := {[ "/b" := VRef 3 ]};
                    3%positive := {[ "x" := VNum 1 ]} ]} [] in
  exists lp d w',
    parent (Nodes (VRef 2) (VRef 3) (Some "/b") false) = VRef lp
    /\ dirName (Nodes (VRef 2) (VRef 3) (Some "/b") false) = Some d
    /\ w' = World (<[lp := base.delete d (object w lp)]> (heap w))
              (log w ++ [Emit "/a/b" "pre-delete"; DeleteProp lp d;
                         Emit "/a/b" "post-delete"])
    /\ delete true (Make (VRef 1)) "/a/b/" None w = (w', Return true)
    /\ forall key, exists_ true (Make (VRef 1)) "/a/b/" key w' = (w', Return false).
Proof.
  intros w.
  apply (delete_subtree true (Make (VRef 1)) "/a/b/" w
           (Nodes (VRef 2) (VRef 3) (Some "/b") false)).
  - vm_compute. reflexivity.
  - discriminate.
Defined.

(** X7.  [delete(path)] without a key, on a path that has no layer (the
    root: the empty path or slashes only, and any path without a slash),
    emits [pre-delete] and then fails with a TypeError: the root has no
    parent to delete it from. *)
Theorem delete_root_throws (nullGuard : bool) (this : Store.t) (path : string)
    (w : world) :
  layersOf path = [] ->
  delete nullGuard this path None w
  = (World (heap w)
       (log w ++ [Emit (JsString.stripTrailingSlashes path) "pre-delete"]),
     Throw TypeError).
Proof.
  intros Hlayers. unfold delete, parsePath. unfold layersOf in Hlayers.
  rewrite Hlayers. reflexivity.
Qed.

Lemma delete_root_throws_witness :
  delete true (Make (VRef 1)) "//" None (World {[1%positive := ∅]} [])
  = (World {[1%positive := ∅]} [Emit "" "pre-delete"], Throw TypeError).
Proof.
  exact (delete_root_throws true (Make (VRef 1)) "//"
           (World {[1%positive := ∅]} []) eq_refl).
Defined.

(** X8.  [get] without a key on a path that resolves to a node: a boolean in
    the place of the key is taken for the [recursive] flag, unless a third
    argument is given, which wins.  With the flag set the node itself is
    returned; without it a fresh object holding exactly the entries of the
    node whose key does not start with a slash. *)
Theorem get_without_key (nullGuard : bool) (this : Store.t) (path : string)
    (w : world) (nodes : Store.nodes) (l : loc) :
  (parsePath nullGuard (JsString.stripTrailingSlashes path) (data this)
             false w).2 = Return (Some nodes) ->
  current nodes = VRef l ->
  (forall b, get nullGuard this path (Some (Flag b)) None w
             = get nullGuard this path None (Some b) w)
  /\ (forall b r, get nullGuard this path (Some (Flag b)) (Some r) w
                  = get nullGuard this path None (Some r) w)
  /\ get nullGuard this path None (Some true) w = (w, Return (Value (VRef l)))
  /\ exists o,
       get nullGuard this path None None w = (w, Return (Picked o))
       /\ forall k, o !! k = if childKey k then None else object w l !! k.
Proof.
  intros Hparse Hcur. apply parsePath_nocreate_result in Hparse.
  repeat split.
  - unfold get. unfold bind. rewrite Hparse.
    cbn [currentOf from_option]. by rewrite Hcur.
  - eexists. split.
    + unfold get. unfold bind. rewrite Hparse.
      cbn [currentOf from_option]. rewrite Hcur. reflexivity.
    + intros k. apply option_eq. intros x.
      rewrite map_lookup_filter_Some. cbn [fst].
      destruct (childKey k); split; try done; intros [? ?]; done.
Qed.

Lemma get_without_key_witness :
  let w := World {[ 1%positive := {[ "/a" := VRef 2; "n" := VNum 7 ]};
                    2%positive := {[ "x" := VNum 1 ]} ]} [] in
  get true (Make (VRef 1)) "/" None (Some true) w = (w, Return (Value (VRef 1)))
  /\ exists o,
       get true (Make (VRef 1)) "/" None None w = (w, Return (Picked o))
       /\ forall k, o !! k = if childKey k then None else object w 1 !! k.
Proof.
  intros w.
  destruct (get_without_key true (Make (VRef 1)) "/" w
              (Nodes VNull (VRef 1) None false) 1%positive eq_refl eq_refl)
    as (_ & _ & Hrec & Hpick).
  split; [exact Hrec|exact Hpick].
Defined.

Lemma has_world (nullGuard : bool) obj key w :
  (has nullGuard obj key w).1 = w.
Proof. destruct obj; cbn [has]; try done; by destruct nullGuard. Qed.

Lemma getProp_world obj key w : (getProp obj key w).1 = w.
Proof. by destruct obj. Qed.

Lemma pickLeaves_world (nullGuard : bool) obj w :
  (pickLeaves nullGuard obj w).1 = w.
Proof. destruct obj; cbn [pickLeaves]; try done; by destruct nullGuard. Qed.

(** X9.  [get] and [exists] change neither the tree nor the effects,
    whatever their arguments and however they end. *)
Theorem reads_change_nothing (nullGuard : bool) (this : Store.t)
    (path : string) (w : world) :
  (forall key recursive, (get nullGuard this path key recursive w).1 = w)
  /\ (forall key, (exists_ nullGuard this path key w).1 = w).
Proof.
  pose proof (parsePath_nocreate_world nullGuard
                (JsString.stripTrailingSlashes path) (data this) w) as Hw.
  split.
  - intros key recursive. unfold get. unfold bind at 1.
    destruct (parsePath _ _ _ _ _) as [w' [r|e]]; cbn [fst] in Hw; subst w';
      [|done].
    destruct key as [[k|b]|].
    + unfold bind at 1.
      pose proof (has_world nullGuard (currentOf r) k w) as Hh.
      destruct (has _ _ _ _) as [w1 [present|e]]; cbn [fst] in Hh; subst w1;
        [|done].
      destruct present; [|done]. cbn [negb]. unfold bind at 1.
      pose proof (getProp_world (currentOf r) k w) as Hg.
      by destruct (getProp _ _ _) as [w1 [x|e]]; cbn [fst] in Hg; subst w1.
    + destruct recursive as [[]|]; try destruct b; try done;
        apply pickLeaves_world.
    + destruct recursive as [[]|]; try done; apply pickLeaves_world.
  - intros key. unfold exists_. unfold bind at 1.
    destruct (parsePath _ _ _ _ _) as [w' [r|e]]; cbn [fst] in Hw; subst w';
      [|done].
    destruct r as [n|], key as [k|]; try done. apply has_world.
Qed.

(** X10.  On a store that keeps the Node invariant, [exists] never raises:
    without a key it tells whether the path resolves, with a key whether the
    path resolves to a node that holds the key. *)
Theorem exists_reflects_resolution (nullGuard : bool) (this : Store.t)
    (path : string) (w : world) (root : loc) :
  data this = VRef root ->
  nodeInvariant w ->
  exists_ nullGuard this path None w = (w, Return (resolves nullGuard this path w))
  /\ forall key,
       exists b,
         exists_ nullGuard this path (Some key) w = (w, Return b)
         /\ (b = true
             <-> exists nodes l,
                   parsePath nullGuard (JsString.stripTrailingSlashes path)
                             (data this) false w = (w, Return (Some nodes))
                   /\ current nodes = VRef l
                   /\ is_Some (object w l !! key)).
Proof.
  intros Hroot Hinv.
  destruct (walk_nocreate_returns nullGuard (layersOf path) VNull root None
              false w Hinv) as [r Hr].
  assert (Hparse : parsePath nullGuard (JsString.stripTrailingSlashes path)
                     (data this) false w = (w, Return r))
    by by rewrite Hroot.
  unfold resolves. rewrite Hparse. cbn [snd]. destruct r as [nodes|].
  - destruct (walk_nocreate_current nullGuard _ _ _ _ _ _ _ Hinv Hr)
      as [l Hcur].
    destruct (exists_resolved nullGuard this path w nodes l Hparse Hcur)
      as [Hnode Hkeys].
    split; [done|]. intros key. eexists. split; [apply Hkeys|].
    rewrite bool_decide_eq_true. split.
    + intros Hsome. by exists nodes, l.
    + intros (nodes' & l' & [= <-] & Hcur' & Hsome). congruence.
  - split; [by apply exists_unresolved|]. intros key. exists false.
    split; [by apply exists_unresolved|].
    split; [discriminate|]. intros (? & ? & ? & _). discriminate.
Qed.

Lemma exists_reflects_resolution_witness :
  exists_ true (Make (VRef 1)) "/missing" None (World {[1%positive := ∅]} [])
  = (World {[1%positive := ∅]} [], Return false).
Proof.
  exact (proj1 (exists_reflects_resolution true (Make (VRef 1)) "/missing"
                  (World {[1%positive := ∅]} []) 1%positive eq_refl
                  (nodeInvariant_new 1 []))).
Defined.

(** X11.  A [save] on a path that resolves to a node changes the value
    [get] returns for its own key only: for every other key of that path
    [get] returns what it returned before. *)
Theorem save_leaves_other_keys (nullGuard : bool) (this : Store.t)
    (path key key' : string) (v : val) (w : world) (nodes : Store.nodes)
    (l : loc) :
  (parsePath nullGuard (JsString.stripTrailingSlashes path) (data this)
             false w).2 = Return (Some nodes) ->
  current nodes = VRef l ->
  childKey key = false ->
  key' <> key ->
  (get nullGuard this path (Some (Key key')) None
       (save nullGuard this path key v w).1).2
  = (get nullGuard this path (Some (Key key')) None w).2.
Proof.
  intros Hparse Hcur Hkey Hne.
  destruct (parsePath_resolved nullGuard path this w nodes Hparse)
    as (Hno & Hcreate & Hflag & _).
  rewrite (save_resolved nullGuard this path key v w w nodes l) by done.
  cbn [fst].
  match goal with |- (get _ _ _ _ _ ?W).2 = _ => set (wf := W) end.
  assert (Hno' : parsePath nullGuard (JsString.stripTrailingSlashes path)
                   (data this) false wf = (wf, Return (Some nodes))).
  { eapply walk_nocreate_stable; [exact Hno|].
    by apply keepsChildren_after_set. }
  rewrite (get_resolved nullGuard this path key' None wf nodes l) by done.
  rewrite (get_resolved nullGuard this path key' None w nodes l) by done.
  cbn [snd]. unfold wf. rewrite object_after_set, decide_True by done.
  by rewrite lookup_insert_ne.
Qed.

Lemma save_leaves_other_keys_witness :
  let w := World {[ 1%positive := {[ "/a" := VRef 2 ]};
                    2%positive := {[ "x" := VNum 1 ]} ]} [] in
  (get true (Make (VRef 1)) "/a" (Some (Key "x")) None
       (save true (Make (VRef 1)) "/a" "y" (VNum 2) w).1).2
  = (get true (Make (VRef 1)) "/a" (Some (Key "x")) None w).2.
Proof.
  intros w.
  apply (save_leaves_other_keys true (Make (VRef 1)) "/a" "y" "x" (VNum 2) w
           (Nodes (VRef 1) (VRef 2) (Some "/a") false) 2%positive).
  - vm_compute. reflexivity.
  - reflexivity.
  - reflexivity.
  - discriminate.
Defined.

End StoreExtras.

(** * Ancestors of a path are all different *)

Section Ancestors.

Import JsString.

Lemma length_append (a b : string) :
  String.length (String.append a b) = String.length a + String.length b.
Proof.
  induction a as [|c a IH]; [done|]. rewrite append_cons. simpl. by rewrite IH.
Qed.

Lemma length_pathOf_app (a b : list string) :
  String.length (pathOf (a ++ b))
  = String.length (pathOf a) + String.length (pathOf b).
Proof. by rewrite pathOf_app, length_append. Qed.

Lemma length_pathOf_segment (s : string) :
  segment s = true -> 2 <= String.length (pathOf [s]).
Proof.
  unfold segment. intros [Hne _]%andb_true_iff. simpl.
  rewrite append_empty_r. destruct s; [done|]. simpl. lia.
Qed.

Lemma length_channelOf_snoc (init : list string) (s : string) :
  segment s = true ->
  String.length (channelOf init) < String.length (pathOf (init ++ [s])).
Proof.
  intros Hs. pose proof (length_pathOf_segment s Hs) as Hlen.
  rewrite length_pathOf_app. destruct init as [|x init]; [simpl in *; lia|].
  unfold channelOf. lia.
Qed.

Lemma channelOf_snoc (init : list string) (s : string) :
  channelOf (init ++ [s]) = pathOf (init ++ [s]).
Proof. by destruct init. Qed.

(** Every strict ancestor is shorter than the path. *)
Lemma ancestorsOf_shorter (segs : list string) (x : string) :
  Forall (fun s => segment s = true) segs ->
  x ∈ ancestorsOf segs ->
  String.length x < String.length (pathOf segs).
Proof.
  revert x. induction segs as [|s init IH] using rev_ind; intros x Hsegs Hx.
  - by apply not_elem_of_nil in Hx.
  - apply Forall_app in Hsegs as [Hinit Hs]. apply Forall_cons in Hs as [Hs _].
    rewrite ancestorsOf_snoc in Hx.
    pose proof (length_channelOf_snoc init s Hs) as Hlen.
    apply elem_of_cons in Hx as [->|Hx]; [done|].
    specialize (IH x Hinit Hx).
    pose proof (length_pathOf_app init [s]). lia.
Qed.

Lemma pathOf_not_ancestor (segs : list string) :
  Forall (fun s => segment s = true) segs ->
  pathOf segs ∉ ancestorsOf segs.
Proof.
  intros Hsegs Hin. pose proof (ancestorsOf_shorter segs _ Hsegs Hin). lia.
Qed.

Lemma ancestorsOf_NoDup (segs : list string) :
  Forall (fun s => segment s = true) segs -> NoDup (ancestorsOf segs).
Proof.
  induction segs as [|s init IH] using rev_ind; intros Hsegs.
  - constructor.
  - apply Forall_app in Hsegs as [Hinit Hs]. rewrite ancestorsOf_snoc.
    constructor; [|by apply IH].
    intros Hin. pose proof (ancestorsOf_shorter init _ Hinit Hin) as Hlen.
    destruct init as [|x init]; [by apply not_elem_of_nil in Hin|].
    unfold channelOf in Hlen. lia.
Qed.

(** A path is among the strict ancestors of its strict descendants. *)
Lemma channelOf_ancestor (p r : list string) :
  r <> [] -> channelOf p ∈ ancestorsOf (p ++ r).
Proof.
  induction r as [|s r' IH] using rev_ind; intros Hr; [done|].
  rewrite app_assoc, ancestorsOf_snoc.
  destruct r' as [|y r'].
  - rewrite app_nil_r. apply list_elem_of_here.
  - apply list_elem_of_further. by apply IH.
Qed.

Lemma pathOf_descendant_differs (p r : list string) :
  Forall (fun s => segment s = true) r ->
  r <> [] ->
  pathOf (p ++ r) <> pathOf p.
Proof.
  intros Hr Hne Heq. apply (f_equal String.length) in Heq.
  rewrite length_pathOf_app in Heq.
  destruct r as [|s r]; [done|]. apply Forall_cons in Hr as [Hs _].
  pose proof (length_pathOf_segment s Hs) as Hlen.
  change (s :: r) with ([s] ++ r) in Heq. rewrite length_pathOf_app in Heq.
  lia.
Qed.

End Ancestors.

(** * One subscriber, one emission *)

Section Delivery.

Import Bubbler JsString.

Lemma calls_app cb t t' : calls cb (t ++ t') = calls cb t ++ calls cb t'.
Proof. apply omap_app. Qed.

Lemma calls_filteredCallback l a :
  calls (l_callback l) (filteredCallback l a).1 = delivery l a.
Proof.
  unfold filteredCallback, delivery, lets.
  destruct (matchFilter _ _ _) as [[]|]; try done. simpl.
  destruct (l_triggered l || _); [|done]. simpl.
  by rewrite calls_Invoke.
Qed.

Lemma delivery_setArg0 l x a : delivery l (setArg0 x a) = delivery l a.
Proof. reflexivity. Qed.

(** The calls of one dispatch on a bus whose only listener is [l], at the
    event type [c]. *)
Lemma calls_dispatch_single id c l a :
  calls (l_callback l) (dispatchTrace id {[c := [l]]} a)
  = if decide (arg_path a = c) then delivery l a else [].
Proof.
  unfold dispatchTrace. rewrite calls_BusEmit. unfold EventEmitter.listeners.
  destruct (decide (arg_path a = c)) as [->|Hne].
  - rewrite lookup_singleton_eq. simpl. rewrite app_nil_r.
    apply calls_filteredCallback.
  - by rewrite lookup_singleton_ne.
Qed.

Lemma calls_dispatch_empty cb id a : calls cb (dispatchTrace id ∅ a) = [].
Proof.
  unfold dispatchTrace. rewrite calls_BusEmit. unfold EventEmitter.listeners.
  by rewrite lookup_empty.
Qed.

Lemma calls_climb_single c l a xs :
  calls (l_callback l)
    (flat_map (fun x => dispatchTrace BubbleBus {[c := [l]]} (setArg0 x a)) xs)
  = flat_map (fun x => if decide (x = c) then delivery l a else []) xs.
Proof.
  induction xs as [|x xs IH]; [done|]. cbn [flat_map].
  by rewrite calls_app, IH, calls_dispatch_single.
Qed.

Lemma calls_climb_empty cb a xs :
  calls cb (flat_map (fun x => dispatchTrace BubbleBus ∅ (setArg0 x a)) xs) = [].
Proof.
  induction xs as [|x xs IH]; [done|]. cbn [flat_map].
  by rewrite calls_app, IH, calls_dispatch_empty.
Qed.

Lemma hits_absent {A : Type} (c : string) (R : list A) xs :
  c ∉ xs -> flat_map (fun x => if decide (x = c) then R else []) xs = [].
Proof.
  induction xs as [|x xs IH]; [done|]. intros [Hne Hnin]%not_elem_of_cons.
  cbn [flat_map]. rewrite decide_False by done. by apply IH.
Qed.

Lemma hits_once {A : Type} (c : string) (R : list A) xs :
  NoDup xs -> c ∈ xs ->
  flat_map (fun x => if decide (x = c) then R else []) xs = R.
Proof.
  induction 1 as [|x xs Hx Hnd IH]; intros Hin;
    [by apply not_elem_of_nil in Hin|].
  cbn [flat_map]. apply elem_of_cons in Hin as [->|Hin].
  - rewrite decide_True by done. by rewrite hits_absent, app_nil_r.
  - rewrite decide_False by (intros ->; done). by apply IH.
Qed.

(** The bubbler after one subscription on a new one. *)
Lemma subscribe_new cleanPath st P cb opts :
  subscribe cleanPath (new st) P cb opts
  = Make {[cleanPath P := [wrapperOf (new st) cb opts]]}
         (if bubbles opts then {[cleanPath P := [wrapperOf (new st) cb opts]]}
          else ∅)
         {[cb_text cb := wrapperOf (new st) cb opts]} st 1.
Proof.
  unfold subscribe, wrapperOf, bubbles, EventEmitter.on, EventEmitter.listeners.
  cbn [eventBus bubbleBus callbacks store closures new].
  rewrite lookup_empty. cbn [default from_option app].
  by rewrite !insert_empty.
Qed.

Lemma subscribe_new_wellFiltered cleanPath st P cb opts :
  Forall validFilter (filtersArray (opt_filters (default noOptions opts))) ->
  wellFiltered (subscribe cleanPath (new st) P cb opts).
Proof.
  intros Hv. rewrite subscribe_new. unfold wellFiltered.
  cbn [eventBus bubbleBus]. split; [|destruct (bubbles opts)];
    try apply map_Forall_empty;
    apply map_Forall_singleton; by repeat constructor.
Qed.

(** How often the one subscriber of a bubbler is called by an emission. *)
Lemma calls_single_subscriber cleanPath st P cb opts Q event extra q :
  cleanPath Q = pathOf q ->
  Forall (fun s => segment s = true) q ->
  Forall validFilter (filtersArray (opt_filters (default noOptions opts))) ->
  let b := subscribe cleanPath (new st) P cb opts in
  let l := wrapperOf (new st) cb opts in
  let a := emitArgsOf cleanPath b Q event extra in
  calls cb (emit cleanPath b Q event extra).1
  = (if decide (pathOf q = cleanPath P) then delivery l a else [])
    ++ (if bubbles opts
        then flat_map (fun x => if decide (x = cleanPath P)
                                then delivery l a else [])
                      (ancestorsOf q)
        else []).
Proof.
  intros HQ Hq Hv b l a.
  rewrite (emit_quiet cleanPath b Q event extra q HQ Hq)
    by by apply subscribe_new_wellFiltered.
  cbv zeta. cbn [fst]. fold a. rewrite calls_app.
  assert (Ha : arg_path a = pathOf q) by (unfold a, emitArgsOf; by simpl).
  unfold b at 1 2. rewrite subscribe_new. cbn [eventBus bubbleBus].
  change cb with (l_callback l) at 1 2. fold l.
  rewrite calls_dispatch_single, Ha. f_equal.
  destruct (bubbles opts).
  - exact (calls_climb_single (cleanPath P) l a (ancestorsOf q)).
  - apply calls_climb_empty.
Qed.

End Delivery.

(** * Who is called, and with what *)

Section DeliveryExtras.

Import Bubbler JsString.

Lemma validFilter_noFilter : Forall validFilter [noFilter].
Proof. repeat constructor; discriminate. Qed.

Lemma lets_noFilter l a :
  l_filters l = [noFilter] ->
  lets l a = l_triggered l || negb (src_triggered (arg_source a)).
Proof. intros Hf. unfold lets. by rewrite Hf. Qed.

(** X12.  A callback subscribed alone on a new bubbler is called exactly
    once, or not at all, by an emission at its own path, whether it bubbles
    or not: once when its filters match and, if it was subscribed with
    [triggered = false], the event is not a triggered one.  It receives the
    event name, the source descriptor and the extra arguments. *)
Theorem subscriber_called_once_at_own_path
    (cleanPath : string -> string) (st : option storeView) (P Q : string)
    (cb : callback) (opts : option options) (event : eventArg)
    (extra : list jsval) (segs : list string) :
  cleanPath P = pathOf segs ->
  cleanPath Q = pathOf segs ->
  Forall (fun s => segment s = true) segs ->
  Forall validFilter (filtersArray (opt_filters (default noOptions opts))) ->
  let b := subscribe cleanPath (new st) P cb opts in
  let l := wrapperOf (new st) cb opts in
  let a := emitArgsOf cleanPath b Q event extra in
  calls cb (emit cleanPath b Q event extra).1
  = (if lets l a then [listenerArguments a] else [])
  /\ (opt_filters (default noOptions opts) = FiltersAbsent ->
      lets l a
      = default true (opt_triggered (default noOptions opts))
        || negb (triggeredOf event)).
Proof.
  intros HP HQ Hsegs Hv b l a. split.
  - unfold b, a.
    rewrite (calls_single_subscriber cleanPath st P cb opts Q event extra segs)
      by done.
    rewrite HP, decide_True by done.
    rewrite hits_absent by by apply pathOf_not_ancestor.
    destruct (bubbles opts); by rewrite app_nil_r.
  - intros Hf. rewrite lets_noFilter; [done|].
    unfold l, wrapperOf. cbn [l_filters]. by rewrite Hf.
Qed.

Lemma subscriber_called_once_at_own_path_witness :
  let cb := Callback 0 "function(){}" in
  let opts := Some (Options (Some false) FiltersAbsent (Some false)) in
  let b := subscribe cleanPath (new None) "/a/b/" cb opts in
  calls cb (emit cleanPath b "/a/b" (EventObject (JStr "update") true) []).1
  = [].
Proof.
  intros cb opts b.
  exact (proj1 (subscriber_called_once_at_own_path cleanPath None "/a/b/" "/a/b"
                  cb opts (EventObject (JStr "update") true) [] ["a"; "b"]
                  eq_refl eq_refl
                  ltac:(repeat constructor) validFilter_noFilter)).
Defined.

(** X13.  A callback subscribed alone on a new bubbler at a path other than
    the root is called by an emission at any strict descendant of that path
    exactly as by an emission at the path itself when it bubbles, once at
    most, and never when it was subscribed with [bubble = false]. *)
Theorem subscriber_called_from_descendants
    (cleanPath : string -> string) (st : option storeView) (P Q : string)
    (cb : callback) (opts : option options) (event : eventArg)
    (extra : list jsval) (p r : list string) :
  cleanPath P = pathOf p ->
  cleanPath Q = pathOf (p ++ r) ->
  p <> [] ->
  r <> [] ->
  Forall (fun s => segment s = true) p ->
  Forall (fun s => segment s = true) r ->
  Forall validFilter (filtersArray (opt_filters (default noOptions opts))) ->
  let b := subscribe cleanPath (new st) P cb opts in
  let l := wrapperOf (new st) cb opts in
  let a := emitArgsOf cleanPath b Q event extra in
  calls cb (emit cleanPath b Q event extra).1
  = if bubbles opts && lets l a then [listenerArguments a] else [].
Proof.
  intros HP HQ Hp Hr Hvp Hvr Hv b l a. unfold b, a.
  assert (Hq : Forall (fun s => segment s = true) (p ++ r))
    by by apply Forall_app.
  rewrite (calls_single_subscriber cleanPath st P cb opts Q event extra
             (p ++ r)) by done.
  rewrite HP, decide_False by by apply pathOf_descendant_differs.
  cbn [app]. destruct (bubbles opts); [|done].
  rewrite hits_once; [done|by apply ancestorsOf_NoDup|].
  replace (pathOf p) with (channelOf p) by by destruct p.
  by apply channelOf_ancestor.
Qed.

Lemma subscriber_called_from_descendants_witness :
  let cb := Callback 0 "function(){}" in
  let b := subscribe cleanPath (new None) "/a" cb None in
  calls cb (emit cleanPath b "/a/b/c" (EventName (JStr "update")) [JStr "x"]).1
  = [ [AVal (JStr "update"); ASource (Source "/a/b/c" false None None);
       AVal (JStr "x")] ].
Proof.
  intros cb b.
  exact (subscriber_called_from_descendants cleanPath None "/a" "/a/b/c"
           cb None (EventName (JStr "update")) [JStr "x"] ["a"] ["b"; "c"]
           eq_refl eq_refl ltac:(discriminate) ltac:(discriminate)
           ltac:(repeat constructor) ltac:(repeat constructor)
           validFilter_noFilter).
Defined.

Lemma ancestorsOf_nonempty (segs : list string) (x : string) :
  x ∈ ancestorsOf segs -> x <> EmptyString.
Proof.
  unfold ancestorsOf. intros (p & -> & _)%list_elem_of_fmap.
  by destruct p.
Qed.

(** X14.  The climb reaches the root under the event type ["/"].  A
    bubbling callback registered under ["/"] is called once by every
    emission at a path other than the root; a callback registered under the
    empty string, which is what stripping the trailing slashes makes of
    ["/"], is called by none of them. *)
Theorem root_is_reached_as_slash
    (cleanPath : string -> string) (st : option storeView) (P Q : string)
    (cb : callback) (opts : option options) (event : eventArg)
    (extra : list jsval) (q : list string) :
  cleanPath P = "/" \/ cleanPath P = "" ->
  cleanPath Q = pathOf q ->
  q <> [] ->
  Forall (fun s => segment s = true) q ->
  Forall validFilter (filtersArray (opt_filters (default noOptions opts))) ->
  let b := subscribe cleanPath (new st) P cb opts in
  let l := wrapperOf (new st) cb opts in
  let a := emitArgsOf cleanPath b Q event extra in
  calls cb (emit cleanPath b Q event extra).1
  = if bool_decide (cleanPath P = "/") && bubbles opts && lets l a
    then [listenerArguments a] else [].
Proof.
  intros HP HQ Hne Hq Hv b l a. unfold b, a.
  rewrite (calls_single_subscriber cleanPath st P cb opts Q event extra q)
    by done.
  assert (Hlen : 2 <= String.length (pathOf q)).
  { destruct q as [|s q]; [done|]. apply Forall_cons in Hq as [Hs _].
    pose proof (length_pathOf_segment s Hs).
    change (s :: q) with ([s] ++ q). rewrite length_pathOf_app. lia. }
  rewrite decide_False by (destruct HP as [-> | ->]; intros Heq;
                           rewrite Heq in Hlen; simpl in Hlen; lia).
  cbn [app]. destruct HP as [HP|HP]; rewrite HP.
  - rewrite bool_decide_eq_true_2 by done. cbn [andb].
    destruct (bubbles opts); [|done].
    rewrite hits_once; [done|by apply ancestorsOf_NoDup|].
    exact (channelOf_ancestor [] q Hne).
  - rewrite bool_decide_eq_false_2 by done. cbn [andb].
    destruct (bubbles opts); [|done].
    apply hits_absent. intros Hin. by apply ancestorsOf_nonempty in Hin.
Qed.

Lemma root_is_reached_as_slash_witness :
  let cb := Callback 0 "function(){}" in
  let b := subscribe cleanPath (new None) "/" cb None in
  calls cb (emit cleanPath b "/a/b" (EventName (JStr "update")) []).1 = [].
Proof.
  intros cb b.
  exact (root_is_reached_as_slash cleanPath None "/" "/a/b" cb None
           (EventName (JStr "update")) [] ["a"; "b"]
           (or_intror eq_refl) eq_refl ltac:(discriminate)
           ltac:(repeat constructor) validFilter_noFilter).
Defined.

End DeliveryExtras.

(** * Unsubscribing *)

Section Unsubscribe.

Import Bubbler.

Lemma removeLast_snoc l ls :
  EventEmitter.removeLast l (ls ++ [l]) = Some ls.
Proof.
  induction ls as [|x ls IH]; simpl.
  - unfold sameListener. by rewrite Nat.eqb_refl.
  - by rewrite IH.
Qed.

Lemma removeLast_absent l ls :
  Forall (fun x => l_id x <> l_id l) ls -> EventEmitter.removeLast l ls = None.
Proof.
  induction 1 as [|x ls Hx _ IH]; [done|]. simpl. rewrite IH.
  unfold sameListener. by rewrite (proj2 (Nat.eqb_neq _ _) Hx).
Qed.

(** Registering a closure and removing it again leaves the listeners of
    every event type as they were. *)
Lemma removeListener_on (e : gmap string (list listener)) c l q :
  EventEmitter.listeners
    (EventEmitter.removeListener (EventEmitter.on e c l) c l) q
  = EventEmitter.listeners e q.
Proof.
  unfold EventEmitter.removeListener, EventEmitter.on.
  rewrite lookup_insert_eq, removeLast_snoc.
  destruct (EventEmitter.listeners e c) as [|x ls] eqn:Hl;
    unfold EventEmitter.listeners in *;
    destruct (decide (q = c)) as [->|Hne].
  - rewrite lookup_delete_eq. by rewrite Hl.
  - by rewrite lookup_delete_ne, lookup_insert_ne.
  - rewrite lookup_insert_eq. by rewrite Hl.
  - by rewrite !lookup_insert_ne.
Qed.

Lemma removeListener_absent (e : gmap string (list listener)) c l :
  Forall (fun x => l_id x <> l_id l) (EventEmitter.listeners e c) ->
  EventEmitter.removeListener e c l = e.
Proof.
  unfold EventEmitter.removeListener, EventEmitter.listeners.
  destruct (e !! c) as [ls|]; [|done]. cbn [default from_option].
  intros Habs. by rewrite removeLast_absent.
Qed.

Lemma closuresBelow_listeners b c :
  closuresBelow b ->
  Forall (fun x => l_id x < closures b) (EventEmitter.listeners (eventBus b) c)
  /\ Forall (fun x => l_id x < closures b)
            (EventEmitter.listeners (bubbleBus b) c).
Proof.
  intros [He Hb]. unfold EventEmitter.listeners. split.
  - destruct (eventBus b !! c) as [ls|] eqn:Hc; [by eapply He|constructor].
  - destruct (bubbleBus b !! c) as [ls|] eqn:Hc; [by eapply Hb|constructor].
Qed.

Lemma closuresBelow_new st : closuresBelow (new st).
Proof. split; apply map_Forall_empty. Qed.

Lemma closuresBelow_subscribe cleanPath b path cb opts :
  closuresBelow b -> closuresBelow (subscribe cleanPath b path cb opts).
Proof.
  intros Hb.
  destruct (closuresBelow_listeners b (cleanPath path) Hb) as [Hle Hlb].
  destruct Hb as [He Hbb].
  assert (Hup : forall (m : gmap string (list listener)),
             map_Forall (fun _ ls => Forall (fun l => l_id l < closures b) ls) m ->
             map_Forall (fun _ ls => Forall (fun l => l_id l < S (closures b)) ls) m).
  { intros m Hm k ls Hk. eapply Forall_impl; [by eapply Hm|]. simpl. lia. }
  unfold closuresBelow, subscribe, EventEmitter.on.
  cbn [eventBus bubbleBus closures]. split.
  - apply map_Forall_insert_2; [|by apply Hup].
    apply Forall_app. split; [eapply Forall_impl; [exact Hle|simpl; lia]|].
    repeat constructor.
  - destruct (default true _); [|by apply Hup].
    apply map_Forall_insert_2; [|by apply Hup].
    apply Forall_app. split; [eapply Forall_impl; [exact Hlb|simpl; lia]|].
    repeat constructor.
Qed.

(** X15.  Subscribing a callback and unsubscribing it from the same path
    leaves on both buses, at every path, the listeners that were there
    before, and no bookkeeping entry for the callback. *)
Theorem subscribe_then_unsubscribe
    (cleanPath : string -> string) (b : Bubbler.t) (path : string)
    (cb : callback) (opts : option options) :
  closuresBelow b ->
  let b' := unsubscribe cleanPath (subscribe cleanPath b path cb opts) path cb in
  (forall q, EventEmitter.listeners (eventBus b') q
             = EventEmitter.listeners (eventBus b) q)
  /\ (forall q, EventEmitter.listeners (bubbleBus b') q
                = EventEmitter.listeners (bubbleBus b) q)
  /\ callbacks b' = delete (cb_text cb) (callbacks b).
Proof.
  intros Hb.
  destruct (closuresBelow_listeners b (cleanPath path) Hb) as [_ Hlb].
  unfold unsubscribe, subscribe. cbn [callbacks eventBus bubbleBus].
  rewrite lookup_insert_eq. cbn [eventBus bubbleBus callbacks].
  repeat split.
  - intros q. apply removeListener_on.
  - intros q. destruct (default true _); [apply removeListener_on|].
    rewrite removeListener_absent; [done|].
    eapply Forall_impl; [exact Hlb|]. simpl. lia.
  - apply delete_insert_eq.
Qed.

Lemma subscribe_then_unsubscribe_witness :
  let cb := Callback 0 "function(){}" in
  let b := subscribe cleanPath (new None) "/a" (Callback 1 "function(e){}") None in
  let b' := unsubscribe cleanPath
              (subscribe cleanPath b "/a/" cb
                 (Some (Options (Some false) FiltersAbsent None)))
              "/a" cb in
  (forall q, EventEmitter.listeners (eventBus b') q
             = EventEmitter.listeners (eventBus b) q)
  /\ (forall q, EventEmitter.listeners (bubbleBus b') q
                = EventEmitter.listeners (bubbleBus b) q)
  /\ callbacks b' = delete (cb_text cb) (callbacks b).
Proof.
  intros cb b.
  exact (subscribe_then_unsubscribe cleanPath b "/a/" cb
           (Some (Options (Some false) FiltersAbsent None))
           (closuresBelow_subscribe cleanPath (new None) "/a"
              (Callback 1 "function(e){}") None (closuresBelow_new None))).
Defined.

Lemma subscribe_elsewhere cleanPath b path cb opts q :
  cleanPath path <> q ->
  EventEmitter.listeners (eventBus (subscribe cleanPath b path cb opts)) q
  = EventEmitter.listeners (eventBus b) q
  /\ EventEmitter.listeners (bubbleBus (subscribe cleanPath b path cb opts)) q
     = EventEmitter.listeners (bubbleBus b) q.
Proof.
  intros Hne. unfold subscribe, EventEmitter.on. cbn [eventBus bubbleBus].
  split.
  - unfold EventEmitter.listeners at 1. by rewrite lookup_insert_ne.
  - destruct (default true _); [|done].
    unfold EventEmitter.listeners at 1. by rewrite lookup_insert_ne.
Qed.

Lemma subscribe_here cleanPath b path cb opts :
  wrapperOf b cb opts
  ∈ EventEmitter.listeners (eventBus (subscribe cleanPath b path cb opts))
      (cleanPath path).
Proof.
  unfold subscribe, EventEmitter.on. cbn [eventBus].
  unfold EventEmitter.listeners at 1. rewrite lookup_insert_eq.
  cbn [default from_option]. apply elem_of_app. right. apply list_elem_of_here.
Qed.

(** X16.  The bookkeeping has one entry per callback.  Once the same callback
    is subscribed at a second path, unsubscribing it from the first path
    removes no listener from either bus, drops the entry, and leaves every
    later [unsubscribe] of that callback without effect on the buses: both
    closures keep listening. *)
Theorem unsubscribe_after_second_subscribe
    (cleanPath : string -> string) (b : Bubbler.t) (p1 p2 : string)
    (cb : callback) (o1 o2 : option options) :
  closuresBelow b ->
  cleanPath p1 <> cleanPath p2 ->
  let b2 := subscribe cleanPath (subscribe cleanPath b p1 cb o1) p2 cb o2 in
  let b3 := unsubscribe cleanPath b2 p1 cb in
  eventBus b3 = eventBus b2
  /\ bubbleBus b3 = bubbleBus b2
  /\ wrapperOf b cb o1 ∈ EventEmitter.listeners (eventBus b3) (cleanPath p1)
  /\ callbacks b3 !! cb_text cb = None
  /\ forall p, eventBus (unsubscribe cleanPath b3 p cb) = eventBus b3
               /\ bubbleBus (unsubscribe cleanPath b3 p cb) = bubbleBus b3.
Proof.
  intros Hb Hne b2 b3.
  pose proof (closuresBelow_subscribe cleanPath b p1 cb o1 Hb) as Hb1.
  destruct (closuresBelow_listeners _ (cleanPath p1) Hb1) as [Hle Hlb].
  assert (Hfresh : forall ls : list listener,
             Forall (fun x => l_id x < closures (subscribe cleanPath b p1 cb o1)) ls ->
             Forall (fun x => l_id x
                              <> l_id (wrapperOf (subscribe cleanPath b p1 cb o1)
                                         cb o2)) ls).
  { intros ls Hls. eapply Forall_impl; [exact Hls|]. simpl. lia. }
  assert (He : eventBus b3 = eventBus b2 /\ bubbleBus b3 = bubbleBus b2
               /\ callbacks b3 !! cb_text cb = None).
  { assert (Hw : callbacks b2 !! cb_text cb
                 = Some (wrapperOf (subscribe cleanPath b p1 cb o1) cb o2)).
    { unfold b2, subscribe at 1. cbn [callbacks]. apply lookup_insert_eq. }
    unfold b3, unsubscribe. rewrite Hw.
    cbn [eventBus bubbleBus callbacks]. rewrite lookup_delete_eq.
    destruct (subscribe_elsewhere cleanPath (subscribe cleanPath b p1 cb o1)
                p2 cb o2 (cleanPath p1) (not_eq_sym Hne)) as [Ee Eb].
    repeat split; apply removeListener_absent; fold b2 in Ee, Eb.
    - rewrite Ee. by apply Hfresh.
    - rewrite Eb. by apply Hfresh. }
  destruct He as (He & Hbb & Hcb).
  destruct (subscribe_elsewhere cleanPath (subscribe cleanPath b p1 cb o1)
              p2 cb o2 (cleanPath p1) (not_eq_sym Hne)) as [Ee _].
  fold b2 in Ee. repeat split; try done.
  - rewrite He, Ee. apply subscribe_here.
  - unfold unsubscribe. by rewrite Hcb.
  - unfold unsubscribe. by rewrite Hcb.
Qed.

Lemma unsubscribe_after_second_subscribe_witness :
  let cb := Callback 0 "function(){}" in
  let b2 := subscribe cleanPath (subscribe cleanPath (new None) "/a" cb None)
              "/b" cb None in
  let b3 := unsubscribe cleanPath b2 "/a" cb in
  eventBus b3 = eventBus b2
  /\ bubbleBus b3 = bubbleBus b2
  /\ wrapperOf (new None) cb None
       ∈ EventEmitter.listeners (eventBus b3) "/a"
  /\ callbacks b3 !! cb_text cb = None
  /\ forall p, eventBus (unsubscribe cleanPath b3 p cb) = eventBus b3
               /\ bubbleBus (unsubscribe cleanPath b3 p cb) = bubbleBus b3.
Proof.
  intros cb.
  exact (unsubscribe_after_second_subscribe cleanPath (new None) "/a" "/b" cb
           None None (closuresBelow_new None) ltac:(discriminate)).
Defined.

End Unsubscribe.

(** * Emissions that stop, typed subscriptions, and the facade's callback *)

Section EmitMore.

Import Bubbler JsString.

Lemma callListeners_raise pre l post a e :
  Forall (fun x => Forall validFilter (l_filters x)) pre ->
  matchFilter (arg_event a) (default JUndefined (src_type (arg_source a)))
    (l_filters l) = Throw e ->
  callListeners (pre ++ l :: post) a = (invocations pre a, Throw e).
Proof.
  intros Hpre Hl. induction Hpre as [|x pre Hx _ IH].
  - cbn [app callListeners]. unfold filteredCallback. by rewrite Hl.
  - cbn [app callListeners]. rewrite (filteredCallback_quiet x a Hx), IH.
    done.
Qed.

(** X17.  A closure whose filters make [matchFilter] raise stops the
    emission at its path: [emit] raises the same error after the direct
    dispatch has called the closures registered before it; the closures
    registered after it are not called and nothing is dispatched on the
    bubble bus, so no ancestor hears of the event. *)
Theorem invalid_filter_stops_emit
    (cleanPath : string -> string) (b : Bubbler.t) (path : string)
    (event : eventArg) (extra : list jsval)
    (pre : list listener) (l : listener) (post : list listener) (e : error) :
  let a := emitArgsOf cleanPath b path event extra in
  EventEmitter.listeners (eventBus b) (cleanPath path) = pre ++ l :: post ->
  Forall (fun x => Forall validFilter (l_filters x)) pre ->
  matchFilter (arg_event a) (default JUndefined (src_type (arg_source a)))
    (l_filters l) = Throw e ->
  emit cleanPath b path event extra
  = (BusEmit DirectBus (argsArray a) :: invocations pre a, Throw e).
Proof.
  intros a Hls Hpre Hl. rewrite emit_unfold. cbv zeta. fold a.
  unfold busEmit.
  assert (Ha : arg_path a = cleanPath path) by done.
  rewrite Ha, Hls, (callListeners_raise pre l post a e Hpre Hl). done.
Qed.

Lemma invalid_filter_stops_emit_witness :
  let first := Callback 0 "function(a){}" in
  let bad := Callback 1 "function(b){}" in
  let last := Callback 2 "function(c){}" in
  let b0 := subscribe cleanPath (new None) "/" first None in
  let b1 := subscribe cleanPath b0 "/a" first None in
  let b2 := subscribe cleanPath b1 "/a"
              bad (Some (Options None (FiltersOne (Filter COther CUndefined))
                           None)) in
  let b3 := subscribe cleanPath b2 "/a" last None in
  emit cleanPath b3 "/a" (EventName (JStr "update")) []
  = ([BusEmit DirectBus
        [AVal (JStr "/a"); AVal (JStr "update");
         ASource (Source "/a" false None None)];
      Invoke (wrapperOf b0 first None)
        [AVal (JStr "update"); ASource (Source "/a" false None None)]],
     Throw InvalidTypes).
Proof.
  intros first bad last b0 b1 b2 b3.
  exact (invalid_filter_stops_emit cleanPath b3 "/a"
           (EventName (JStr "update")) []
           [wrapperOf b0 first None]
           (wrapperOf b1 bad
              (Some (Options None (FiltersOne (Filter COther CUndefined))
                       None)))
           [wrapperOf b2 last None] InvalidTypes
           eq_refl
           (Forall_cons_2 (fun x => Forall validFilter (l_filters x))
              (wrapperOf b0 first None) [] validFilter_noFilter
              (Forall_nil_2 _))
           eq_refl).
Defined.

(** An emission at the path of the one subscriber. *)
Lemma calls_own_path cleanPath st P Q cb opts event extra segs :
  cleanPath P = pathOf segs ->
  cleanPath Q = pathOf segs ->
  Forall (fun s => segment s = true) segs ->
  Forall validFilter (filtersArray (opt_filters (default noOptions opts))) ->
  let b := subscribe cleanPath (new st) P cb opts in
  calls cb (emit cleanPath b Q event extra).1
  = delivery (wrapperOf (new st) cb opts) (emitArgsOf cleanPath b Q event extra).
Proof.
  intros HP HQ Hsegs Hv b. unfold b.
  rewrite (calls_single_subscriber cleanPath st P cb opts Q event extra segs)
    by done.
  rewrite HP, decide_True by done.
  rewrite hits_absent by by apply pathOf_not_ancestor.
  destruct (bubbles opts); by rewrite app_nil_r.
Qed.

(** An emission at a strict descendant of the path of the one subscriber. *)
Lemma calls_below cleanPath st P Q cb opts event extra p r :
  cleanPath P = pathOf p ->
  cleanPath Q = pathOf (p ++ r) ->
  p <> [] ->
  r <> [] ->
  Forall (fun s => segment s = true) p ->
  Forall (fun s => segment s = true) r ->
  Forall validFilter (filtersArray (opt_filters (default noOptions opts))) ->
  let b := subscribe cleanPath (new st) P cb opts in
  calls cb (emit cleanPath b Q event extra).1
  = if bubbles opts
    then delivery (wrapperOf (new st) cb opts)
                  (emitArgsOf cleanPath b Q event extra)
    else [].
Proof.
  intros HP HQ Hp Hr Hvp Hvr Hv b. unfold b.
  assert (Hq : Forall (fun s => segment s = true) (p ++ r))
    by by apply Forall_app.
  rewrite (calls_single_subscriber cleanPath st P cb opts Q event extra
             (p ++ r)) by done.
  rewrite HP, decide_False by by apply pathOf_descendant_differs.
  cbn [app]. destruct (bubbles opts); [|done].
  rewrite hits_once; [done|by apply ancestorsOf_NoDup|].
  replace (pathOf p) with (channelOf p) by by destruct p.
  by apply channelOf_ancestor.
Qed.

Lemma lets_types_string l a ty :
  l_filters l = [Filter (CString ty) CUndefined] ->
  l_triggered l = true ->
  lets l a
  = bool_decide (default JUndefined (src_type (arg_source a)) = JStr ty).
Proof.
  intros Hf Ht. unfold lets. rewrite Hf, Ht.
  cbn [matchFilter types names checkTypes checkNames]. unfold strictEq.
  destruct (default JUndefined (src_type (arg_source a))) as [| |s].
  - by rewrite !bool_decide_eq_false_2.
  - by rewrite !bool_decide_eq_false_2.
  - destruct (decide (s = ty)) as [->|Hne].
    + by rewrite !bool_decide_eq_true_2.
    + rewrite !bool_decide_eq_false_2; [done|congruence|congruence].
Qed.

(** X18.  On a bubbler with a store, a callback subscribed with a single
    type name as its [types] filter is called, by an emission at its path,
    exactly when the type of the source is that name.  For the event
    ['delete'] emitted with two extra arguments the type is the first of
    them, whatever the store holds; for any other emission it is the type
    the store reports at the path, and when the lookup in the store fails
    the callback is not called. *)
Theorem type_filter_reads_the_store
    (cleanPath : string -> string) (view : storeView) (P Q : string)
    (cb : callback) (ty : string) (event : eventArg) (extra : list jsval)
    (segs : list string) :
  cleanPath P = pathOf segs ->
  cleanPath Q = pathOf segs ->
  Forall (fun s => segment s = true) segs ->
  let opts :=
    Some (Options None (FiltersOne (Filter (CString ty) CUndefined)) None) in
  let b := subscribe cleanPath (new (Some view)) P cb opts in
  let a := emitArgsOf cleanPath b Q event extra in
  let called := calls cb (emit cleanPath b Q event extra).1 in
  (forall type obj,
      event = EventName (JStr "delete") -> extra = [type; obj] ->
      called = if bool_decide (type = JStr ty)
               then [listenerArguments a] else [])
  /\ (isDelete event = false \/ length extra <> 2 ->
      called = match view (cleanPath Q) with
               | Some (_, type) =>
                   if bool_decide (type = JStr ty)
                   then [listenerArguments a] else []
               | None => []
               end).
Proof.
  intros HP HQ Hsegs opts b a called.
  assert (Hcalled : called
                    = if bool_decide
                           (default JUndefined (src_type (arg_source a))
                            = JStr ty)
                      then [listenerArguments a] else []).
  { unfold called, b.
    rewrite (calls_own_path cleanPath (Some view) P Q cb opts event extra segs)
      by (try done; repeat constructor; discriminate).
    unfold delivery. fold b. fold a. by rewrite (lets_types_string _ a ty). }
  assert (Hsrc : src_type (arg_source a)
                 = src_type (describe b (cleanPath Q) event extra)) by done.
  assert (Hst : store b = Some view) by done.
  split.
  - intros type obj -> ->. rewrite Hcalled, Hsrc. unfold describe.
    by rewrite Hst.
  - intros Hother. rewrite Hcalled, Hsrc. unfold describe. rewrite Hst.
    assert (Hview : src_type
                      match view (cleanPath Q) with
                      | Some (obj, type) =>
                          Source (cleanPath Q) false (Some obj) (Some type)
                      | None =>
                          Source (cleanPath Q) false (Some JNull) (Some JNull)
                      end
                    = Some match view (cleanPath Q) with
                           | Some (_, type) => type
                           | None => JNull
                           end)
      by by destruct (view (cleanPath Q)) as [[? ?]|].
    assert (Hres : (if bool_decide
                          (match view (cleanPath Q) with
                           | Some (_, type) => type
                           | None => JNull
                           end = JStr ty)
                    then [listenerArguments a] else [])
                   = match view (cleanPath Q) with
                     | Some (_, type) =>
                         if bool_decide (type = JStr ty)
                         then [listenerArguments a] else []
                     | None => []
                     end)
      by by destruct (view (cleanPath Q)) as [[? ?]|].
    destruct (isDelete event) eqn:Hdel.
    + destruct Hother as [?|Hlen]; [done|].
      destruct extra as [|x [|y [|z extra]]]; try done;
        by rewrite Hview.
    + by rewrite Hview.
Qed.

Lemma type_filter_reads_the_store_witness :
  let cb := Callback 0 "function(){}" in
  let view : storeView :=
    fun p => if String.eqb p "/a" then Some (JStr "{}", JStr "user") else None in
  let opts :=
    Some (Options None (FiltersOne (Filter (CString "user") CUndefined)) None) in
  let b := subscribe cleanPath (new (Some view)) "/a/" cb opts in
  calls cb (emit cleanPath b "/a"
              (EventName (JStr "delete")) [JStr "admin"; JStr "{}"]).1
  = [].
Proof.
  intros cb view opts b.
  exact (proj1 (type_filter_reads_the_store cleanPath view "/a/" "/a" cb "user"
                  (EventName (JStr "delete")) [JStr "admin"; JStr "{}"] ["a"]
                  eq_refl eq_refl ltac:(repeat constructor))
           (JStr "admin") (JStr "{}") eq_refl eq_refl).
Defined.

End EmitMore.

(** * The facade's [get] with a callback *)

Section FacadeGet.

Import Bubbler JsString.

Lemma nodeInvariant_alloc (w : Store.world) :
  nodeInvariant w ->
  nodeInvariant
    (Store.World (<[fresh (dom (Store.heap w)) := ∅]> (Store.heap w))
                 (Store.log w)).
Proof.
  intros Hinv l k x Hk Hx. unfold Store.object in Hx. cbn [Store.heap] in Hx.
  destruct (decide (l = fresh (dom (Store.heap w)))) as [->|Hne].
  - rewrite lookup_insert_eq in Hx. cbn in Hx. by rewrite lookup_empty in Hx.
  - rewrite lookup_insert_ne in Hx by done. by eapply Hinv.
Qed.

(** X19.  A callback handed to the facade's [get] is subscribed with
    bubbling whatever [recursive] says.  On a new instance, after
    [save(p, k, v)], [get(p, {recursive, callback})] returns, and the
    callback is then called exactly once by an emission at any strict
    descendant of [p], with the event name, the source descriptor of the
    descendant, and the extra arguments. *)
Theorem giza_get_callback_bubbles
    (cleanPath : string -> string) (nullGuard : bool) (w : Store.world)
    (P Q key : string) (v : Store.val) (recursive : bool) (cb : callback)
    (event : eventArg) (extra : list jsval) (p r : list string) :
  nodeInvariant w ->
  Store.childKey key = false ->
  cleanPath P = pathOf p ->
  cleanPath Q = pathOf (p ++ r) ->
  p <> [] ->
  r <> [] ->
  Forall (fun s => segment s = true) p ->
  Forall (fun s => segment s = true) r ->
  let g1 := (Giza.save nullGuard (Giza.new w) P key v).1 in
  let g2 := Giza.get cleanPath nullGuard g1 P
              (Giza.GetOptions recursive (Some cb)) in
  (exists obj, g2.2 = Return obj)
  /\ calls cb (Giza.emit cleanPath g2.1 Q event extra).1
     = [listenerArguments
          (emitArgsOf cleanPath (Giza.gBubbler g2.1) Q event extra)].
Proof.
  intros Hinv Hkey HP HQ Hp Hr Hvp Hvr.
  set (root := fresh (dom (Store.heap w))).
  set (this := Store.Make (Store.VRef root)).
  pose proof (nodeInvariant_alloc w Hinv) as Hinv0. fold root in Hinv0.
  destruct (parsePath_create_resolves nullGuard (stripTrailingSlashes P) root
              _ Hinv0) as (w0 & nodes & l & Hparse & Hcur & Hagain).
  pose proof (save_resolved nullGuard this P key v _ w0 nodes l Hparse Hcur)
    as Hsave.
  match type of Hsave with _ = (?W, _) => set (wf := W) in * end.
  destruct (Hagain wf) as (nodes' & Hparse' & Hcur');
    [by apply keepsChildren_after_set|].
  pose proof (get_resolved nullGuard this P "[object Object]" None wf nodes' l
                Hparse' Hcur') as Hget.
  assert (Hg2 : Giza.get cleanPath nullGuard
                  (Giza.save nullGuard (Giza.new w) P key v).1 P
                  (Giza.GetOptions recursive (Some cb))
                = (Giza.Make (subscribe cleanPath (new None) P cb None) this wf,
                   Return (Store.Value
                             (default Store.VUndefined
                                (Store.object wf l !! "[object Object]"))))).
  { unfold Giza.save, Giza.new. cbn [Giza.gStore Giza.gWorld Giza.gBubbler].
    fold root. fold this. rewrite Hsave. cbn [fst].
    unfold Giza.get. cbn [Giza.gStore Giza.gWorld Giza.gBubbler].
    rewrite Hget. done. }
  cbv zeta. rewrite Hg2. cbn [fst snd Giza.gBubbler]. split; [eauto|].
  unfold Giza.emit. cbn [Giza.gBubbler].
  rewrite (calls_below cleanPath None P Q cb None event extra p r)
    by (try done; apply validFilter_noFilter).
  cbn [bubbles default from_option noOptions opt_bubble]. unfold delivery.
  by rewrite lets_noFilter.
Qed.

Lemma giza_get_callback_bubbles_witness :
  let cb := Callback 0 "function(){}" in
  let g1 := (Giza.save true (Giza.new (Store.World ∅ [])) "/a" "x"
               (Store.VNum 1)).1 in
  let g2 := Giza.get cleanPath true g1 "/a" (Giza.GetOptions false (Some cb)) in
  (exists obj, g2.2 = Return obj)
  /\ calls cb (Giza.emit cleanPath g2.1 "/a/b" (EventName (JStr "update")) []).1
     = [listenerArguments
          (emitArgsOf cleanPath (Giza.gBubbler g2.1) "/a/b"
             (EventName (JStr "update")) [])].
Proof.
  intros cb.
  refine (giza_get_callback_bubbles cleanPath true (Store.World ∅ []) "/a"
            "/a/b" "x" (Store.VNum 1) false cb (EventName (JStr "update")) []
            ["a"] ["b"] _ eq_refl eq_refl eq_refl ltac:(discriminate)
            ltac:(discriminate) ltac:(repeat constructor)
            ltac:(repeat constructor)).
  intros l k x _ Hx. unfold Store.object in Hx. cbn in Hx.
  by rewrite lookup_empty in Hx.
Defined.

End FacadeGet.

(** * Store: ancestors and descendants *)

Section StoreTree.

Import Store.

(** A path that resolves has resolved each of its prefixes on the way. *)
Lemma walk_prefix (nullGuard : bool) l1 l2 p cur t c w nodes :
  walk nullGuard false (l1 ++ l2) p cur t c w = (w, Return (Some nodes)) ->
  exists nodes',
    walk nullGuard false l1 p cur t c w = (w, Return (Some nodes')).
Proof.
  revert p cur t c. induction l1 as [|layer l1 IH]; intros p cur t c Hwalk;
    [by eexists|].
  change ((layer :: l1) ++ l2) with (layer :: (l1 ++ l2)) in Hwalk.
  destruct (walk_nocreate_step _ _ _ _ _ _ _ _ _ Hwalk)
    as (l & x & -> & Hx & Hrest).
  rewrite (walk_present _ _ _ _ _ _ _ _ _ _ Hx). by eapply IH.
Qed.

(** A path that stops at a missing layer stops there whatever follows. *)
Lemma walk_none_app (nullGuard : bool) l1 l2 p cur t c w :
  walk nullGuard false l1 p cur t c w = (w, Return None) ->
  walk nullGuard false (l1 ++ l2) p cur t c w = (w, Return None).
Proof.
  revert p cur t c. induction l1 as [|layer l1 IH]; intros p cur t c Hwalk;
    [discriminate|].
  change ((layer :: l1) ++ l2) with (layer :: (l1 ++ l2)).
  destruct cur as [| |b|n|l].
  1-4: cbn [walk] in *; unfold bind in *; cbn [has] in *;
       destruct nullGuard; done.
  destruct (object w l !! String JsString.slash layer) as [x|] eqn:Hx.
  - rewrite (walk_present nullGuard false layer l1 p l t c w x Hx) in Hwalk.
    rewrite (walk_present nullGuard false layer (l1 ++ l2) p l t c w x Hx).
    by apply IH.
  - by apply walk_absent_nocreate.
Qed.

(** X20.  [save] creates every node on the way: after [save(p, k, v)],
    [exists] returns [true] for every path whose layers are the first layers
    of [p], the root included. *)
Theorem save_creates_ancestors (nullGuard : bool) (this : Store.t)
    (path above key : string) (v : val) (w : world) (root : loc) :
  data this = VRef root ->
  nodeInvariant w ->
  childKey key = false ->
  (exists rest, layersOf path = layersOf above ++ rest) ->
  exists w1,
    save nullGuard this path key v w = (w1, Return tt)
    /\ exists_ nullGuard this above None w1 = (w1, Return true).
Proof.
  intros Hroot Hinv Hkey [rest Hrest].
  destruct (parsePath_create_resolves nullGuard
              (JsString.stripTrailingSlashes path) root w Hinv)
    as (w0 & nodes & l & Hparse & Hcur & Hagain).
  rewrite <- Hroot in Hparse.
  eexists. split; [by apply (save_resolved nullGuard this path key v w w0 nodes l)|].
  match goal with |- exists_ _ _ _ _ ?W = _ => set (wf := W) end.
  destruct (Hagain wf) as (nodes' & Hparse' & _).
  { by apply keepsChildren_after_set. }
  unfold parsePath in Hparse'. fold (layersOf path) in Hparse'.
  rewrite Hrest in Hparse'.
  destruct (walk_prefix _ _ _ _ _ _ _ _ _ Hparse') as [nodes'' Hup].
  unfold exists_, parsePath. fold (layersOf above). unfold bind.
  by rewrite Hroot, Hup.
Qed.

Lemma save_creates_ancestors_witness :
  exists w1,
    save true (Make (VRef 1)) "/a/b/c" "x" (VNum 1)
         (World {[1%positive := ∅]} []) = (w1, Return tt)
    /\ exists_ true (Make (VRef 1)) "/a/b/" None w1 = (w1, Return true).
Proof.
  exact (save_creates_ancestors true (Make (VRef 1)) "/a/b/c" "/a/b/" "x"
           (VNum 1) (World {[1%positive := ∅]} []) 1%positive eq_refl
           (nodeInvariant_new 1 []) eq_refl (ex_intro _ ["c"] eq_refl)).
Defined.

(** X21.  [delete(p)] without a key takes the whole subtree away: after it,
    [exists] returns [false], with or without a key, for every path whose
    first layers are the layers of [p]. *)
Theorem delete_removes_descendants (nullGuard : bool) (this : Store.t)
    (path below : string) (w : world) (nodes : Store.nodes) :
  (parsePath nullGuard (JsString.stripTrailingSlashes path) (data this)
             false w).2 = Return (Some nodes) ->
  layersOf path <> [] ->
  (exists rest, layersOf below = layersOf path ++ rest) ->
  exists w',
    delete nullGuard this path None w = (w', Return true)
    /\ forall key, exists_ nullGuard this below key w' = (w', Return false).
Proof.
  intros Hparse Hlayers [rest Hrest]. apply parsePath_nocreate_result in Hparse.
  destruct (walk_after_delete nullGuard _ _ _ _ _ _ _ Hparse Hlayers)
    as (lp & d & Hp & Hd & Hgone).
  eexists. split.
  - unfold delete. unfold bind at 1. rewrite Hparse.
    cbn [parentOf dirNameOf from_option mbind option_bind default].
    rewrite Hp, Hd. unfold bind, emit, deleteProp, ret, object.
    cbn [heap log default mbind option_bind]. by rewrite <- !app_assoc.
  - intros key. apply exists_unresolved. unfold parsePath.
    fold (layersOf below). rewrite Hrest. apply walk_none_app.
    apply Hgone. intros l0. apply object_after_delete.
Qed.

Lemma delete_removes_descendants_witness :
  let w := World {[ 1%positive := {[ "/a" := VRef 2 ]};
                    2%positive := {[ "/b" := VRef 3 ]};
                    3%positive := {[ "x" := VNum 1 ]} ]} [] in
  exists w',
    delete true (Make (VRef 1)) "/a" None w = (w', Return true)
    /\ forall key, exists_ true (Make (VRef 1)) "/a/b" key w' = (w', Return false).
Proof.
  intros w.
  apply (delete_removes_descendants true (Make (VRef 1)) "/a" "/a/b" w
           (Nodes (VRef 1) (VRef 2) (Some "/a") false)).
  - vm_compute. reflexivity.
  - discriminate.
  - by exists ["b"].
Defined.

End StoreTree.

(** * The order of the filters *)

Section FilterOrder.

Import Bubbler.

Lemma filterRejects_not_passes eventName type f :
  filterRejects eventName type f -> ~ filterPasses eventName type f.
Proof. intros [[_ Hn]|(_ & _ & Hn)] [Ht Hm]; tauto. Qed.

Lemma matchFilter_valid_true eventName type fs :
  Forall validFilter fs ->
  exists m,
    matchFilter eventName type fs = Return m
    /\ (m = true <-> Forall (filterPasses eventName type) fs).
Proof.
  intros Hv.
  destruct (matchFilter_cases eventName type fs)
    as [[Hall Hm]|(pre & f & post & Hfs & _ & [[Hrej Hm]|(e & Hr & _)])].
  - exists true. tauto.
  - exists false. split; [done|]. split; [discriminate|]. intros Hall.
    exfalso. rewrite Hfs in Hall. apply Forall_app in Hall as [_ Hall].
    apply Forall_cons in Hall as [Hf _].
    by apply (filterRejects_not_passes eventName type f).
  - exfalso. rewrite Hfs in Hv. apply Forall_app in Hv as [_ Hv].
    apply Forall_cons in Hv as [[Ht Hn] _].
    destruct Hr as [[? _]|(_ & ? & _)]; done.
Qed.

(** X22.  When no filter of the list is invalid, the order of the filters
    does not matter: [matchFilter] returns the same answer for every
    rearrangement of the list. *)
Theorem matchFilter_order_irrelevant (eventName type : jsval)
    (fs fs' : list eventFilter) :
  Forall validFilter fs ->
  fs ≡ₚ fs' ->
  matchFilter eventName type fs = matchFilter eventName type fs'.
Proof.
  intros Hv Hperm.
  assert (Hv' : Forall validFilter fs') by by rewrite <- Hperm.
  destruct (matchFilter_valid_true eventName type fs Hv) as (m & -> & Hiff).
  destruct (matchFilter_valid_true eventName type fs' Hv') as (m' & -> & Hiff').
  f_equal. rewrite Hperm in Hiff. rewrite <- Hiff' in Hiff.
  destruct m, m'; try done.
  - symmetry. by apply Hiff.
  - by apply Hiff.
Qed.

Lemma matchFilter_order_irrelevant_witness :
  matchFilter (JStr "update") (JStr "user")
    [Filter (CString "user") CUndefined; Filter CUndefined (CString "delete")]
  = matchFilter (JStr "update") (JStr "user")
      [Filter CUndefined (CString "delete"); Filter (CString "user") CUndefined].
Proof.
  apply matchFilter_order_irrelevant.
  - repeat constructor; discriminate.
  - apply perm_swap.
Defined.

End FilterOrder.
